(** * County-split metrics ([metrics.py]): a shallow embedding and its properties

    The Python module computes five scores from a dictionary that maps
    (county, district) pairs to the population of the intersection, and a
    noise filter that deletes small entries from that dictionary in place.

    Modelling conventions.
    - A Python [dict] is a [gmap]; county and district identifiers are
      strings.  Population values are Python [int]s, modelled as [Z]
      (negative values are representable: the code does not exclude them).
    - The dictionary handed to [threshold] is a mutable object: it lives in a
      heap of dictionaries and is passed around by reference ([loc]).
    - Python exceptions are the [Raise] outcome of [result].
    - A Python [float] that is the quotient of two integers is idealised as
      an exact rational ([Q]); a NumPy [float64] is idealised as an extended
      real ([float64]: a real number, an infinity or NaN).  Rounding is not
      modelled, and a sum or a product of finite floats is finite.  The
      range of a float is modelled where a Python int meets it: turning an
      integer, or the quotient of two integers, into a float raises
      [OverflowError] when it lies outside that range.  The theorems about the float-valued metrics
      ask for populations small enough for every integer that is converted
      to be a float exactly ([float_exact_bound]), so that what they
      conclude (bounds, equality with 1, the exceptions raised) is what the
      code does; where they give a value, the code returns a float
      approximation of it (for a quotient of two integers, the nearest
      float).  NumPy runs with its default error
      handling: a division by zero or an invalid operation on a [float64]
      gives an infinity or NaN and a warning, not an exception.
    - The order in which a [dict] or a [set] is iterated is the order of
      [map_to_list] and [elements]; in exact arithmetic no result depends
      on it. *)

From Stdlib Require Import ZArith QArith Reals Qreals Lra Lia.
From stdpp Require Import gmap strings list fin_maps.

#[local] Set Warnings "-clear-no-such-hyp".
Open Scope Z_scope.

(** ** Data model *)

Abbreviation county := string (only parsing).
Abbreviation district := string (only parsing).
Abbreviation key := (string * string)%type (only parsing).
Abbreviation dict := (gmap (string * string) Z) (only parsing).

(** Python exceptions raised by the operations the module uses. *)
Inductive exn : Set :=
| ZeroDivisionError
| ValueError
| OverflowError.

Inductive result (A : Type) : Type :=
| Ok (a : A)
| Raise (e : exn).
Arguments Ok {A} a.
Arguments Raise {A} e.

Global Instance result_ret : MRet result := λ A a, Ok a.
Global Instance result_bind : MBind result := λ A B f r,
  match r with
  | Ok a => f a
  | Raise e => Raise e
  end.

(** [for key in pops]: iteration over a dictionary, each key paired with the
    value [pops[key]] stored under it. *)
Definition items (pops : dict) : list (key * Z) := map_to_list pops.

(** [key[0] == county] *)
Definition in_county (c : county) (kv : key * Z) : Prop := kv.1.1 = c.
Global Instance in_county_dec c kv : Decision (in_county c kv).
Proof. unfold in_county. apply _. Defined.

(** [set([key[0] for key in pops])], as the list the comprehensions iterate. *)
Definition counties_of (pops : dict) : list county :=
  elements (list_to_set (C := gset string) ((items pops).*1.*1)).

(** [sum] over a list of Python ints: a left fold from [0]. *)
Definition py_sum (l : list Z) : Z := foldl Z.add 0 l.

(** ** The heap of dictionaries and the noise filter *)

Abbreviation loc := positive (only parsing).
Abbreviation heap := (gmap positive (gmap (string * string) Z)) (only parsing).

(** Statements run in a state-and-exception monad over the heap. *)
Definition Py (A : Type) : Type := heap → result (A * heap).

Definition py_ret {A} (a : A) : Py A := λ h, Ok (a, h).
Definition py_bind {A B} (m : Py A) (f : A → Py B) : Py B := λ h,
  match m h with
  | Ok (a, h') => f a h'
  | Raise e => Raise e
  end.

(** Reading the dictionary a reference points to. *)
Definition deref (l : loc) : Py dict := λ h, Ok (h !!! l, h).

(** [pops.pop(key, None)]: deletes [key] from the object itself; with the
    default [None] a missing key is not an error. *)
Definition dict_pop (l : loc) (k : key) : Py unit := λ h,
  Ok (tt, <[l := delete k (h !!! l)]> h).

(** [for x in xs: body(x)] *)
Fixpoint for_each {A} (body : A → Py unit) (xs : list A) : Py unit :=
  match xs with
  | [] => py_ret tt
  | x :: xs' => py_bind (body x) (λ _, for_each body xs')
  end.

(** [threshold(pops, threshold)] *)
Definition threshold (pops : loc) (threshold : Z) : Py loc :=
  py_bind (deref pops) (λ d,
    let keys_to_remove := (filter (λ kv : key * Z, kv.2 < threshold) (items d)).*1 in
    py_bind (for_each (dict_pop pops) keys_to_remove) (λ _,
      py_ret pops)).

(** The default value of the [threshold] argument. *)
Definition threshold_default : Z := 50.

(** ** The two counts *)

(** [counties_split(pops)] *)
Definition counties_split (pops : dict) : Z :=
  let counties := counties_of pops in
  let split_counties :=
    (λ _ : county, 1) <$>
      filter (λ c, (1 < length (filter (in_county c) (items pops)))%nat) counties in
  py_sum split_counties.

(** [county_intersections(pops)] *)
Definition county_intersections (pops : dict) : nat := size pops.

(** ** Python and NumPy arithmetic *)

(** The integers of absolute value below [float_overflow_bound] are those
    that round to a finite binary64 float: the bound is half way between the
    largest float and [2^1024].  The integers up to [float_exact_bound] are
    floats themselves. *)
Definition float_overflow_bound : Z := 2 ^ 1024 - 2 ^ 970.
Definition float_exact_bound : Z := 2 ^ 53.

(** [a / b] on two Python ints: true division.  It raises
    [ZeroDivisionError] on a zero divisor, then [OverflowError] when the
    quotient is too large for a float, and otherwise yields a float. *)
Definition py_truediv (a b : Z) : result Q :=
  if decide (b = 0) then Raise ZeroDivisionError
  else if decide (float_overflow_bound * Z.abs b ≤ Z.abs a) then Raise OverflowError
  else Ok (inject_Z a / inject_Z b)%Q.

(** [x / y] on two Python floats (or a float and an int). *)
Definition py_truediv_float (x y : Q) : result Q :=
  if Qeq_bool y 0 then Raise ZeroDivisionError else Ok (x / y)%Q.

(** [sum] over a list of Python floats. *)
Definition py_sum_float (l : list Q) : Q := foldl Qplus 0%Q l.

(** [max] over a list of Python ints; [max([])] raises [ValueError]. *)
Definition py_max (l : list Z) : result Z :=
  match l with
  | [] => Raise ValueError
  | x :: l' => Ok (foldl Z.max x l')
  end.

(** [i * (i - 1) / 2] for a Python int [i]: an integer product and then
    a true division of two ints. *)
Definition pairs_of (i : Z) : result Q := py_truediv (i * (i - 1)) 2.

(** A NumPy [float64]: finite, infinite or not-a-number.  Zeros carry no
    sign: the only divisors that can be zero in this module are a Python int
    converted to a float and [1 + x], and both are [+0.0]. *)
Inductive float64 : Type :=
| Fin (x : R)
| PInf
| NInf
| NaN.

(** The float of a small integer; used for the literals [0], [1] and [-1]
    and for integers already known to be in range. *)
Definition of_int (n : Z) : float64 := Fin (IZR n).
Definition of_float (q : Q) : float64 := Fin (Q2R q).

(** A Python int as an operand of NumPy arithmetic: it is converted to a
    float, which raises [OverflowError] outside the range of floats. *)
Definition np_of_int (n : Z) : result float64 :=
  if decide (float_overflow_bound ≤ Z.abs n) then Raise OverflowError
  else Ok (of_int n).

(** The sign of a real number. *)
Definition Rsign (x : R) : comparison :=
  match total_order_T x 0 with
  | inleft (left _) => Lt
  | inleft (right _) => Eq
  | inright _ => Gt
  end.

(** IEEE 754 addition. *)
Definition np_add (a b : float64) : float64 :=
  match a, b with
  | NaN, _ | _, NaN => NaN
  | Fin x, Fin y => Fin (x + y)
  | PInf, NInf | NInf, PInf => NaN
  | PInf, _ | _, PInf => PInf
  | NInf, _ | _, NInf => NInf
  end.

(** IEEE 754 multiplication: zero times an infinity is NaN. *)
Definition np_mul (a b : float64) : float64 :=
  match a, b with
  | NaN, _ | _, NaN => NaN
  | Fin x, Fin y => Fin (x * y)
  | Fin x, PInf | PInf, Fin x =>
      match Rsign x with Eq => NaN | Gt => PInf | Lt => NInf end
  | Fin x, NInf | NInf, Fin x =>
      match Rsign x with Eq => NaN | Gt => NInf | Lt => PInf end
  | PInf, PInf | NInf, NInf => PInf
  | PInf, NInf | NInf, PInf => NInf
  end.

(** NumPy division: a zero divisor gives an infinity or NaN (with a warning),
    never an exception. *)
Definition np_div (a b : float64) : float64 :=
  match a, b with
  | NaN, _ | _, NaN => NaN
  | Fin x, Fin y =>
      match Rsign y with
      | Eq => match Rsign x with Eq => NaN | Gt => PInf | Lt => NInf end
      | _ => Fin (x / y)
      end
  | Fin _, (PInf | NInf) => Fin 0
  | PInf, Fin y => match Rsign y with Lt => NInf | _ => PInf end
  | NInf, Fin y => match Rsign y with Lt => PInf | _ => NInf end
  | (PInf | NInf), (PInf | NInf) => NaN
  end.

(** [np.log2] of a Python float: [-inf] at zero and NaN below it. *)
Definition np_log2 (q : Q) : float64 :=
  match (q ?= 0)%Q with
  | Gt => Fin (ln (Q2R q) / ln 2)
  | Eq => NInf
  | Lt => NaN
  end.

(** [sum] over a list of NumPy floats: the fold starts from the int [0]. *)
Definition np_sum (l : list float64) : float64 := foldl np_add (of_int 0) l.

(** ** The three ratio metrics *)

(** [preserved_pairs(pops)] *)
Definition preserved_pairs (pops : dict) : result Q :=
  pairs ← mapM pairs_of (items pops).*2;
  let same_county_same_district := py_sum_float pairs in
  let counties := counties_of pops in
  let county_pops :=
    (λ c, py_sum (filter (in_county c) (items pops)).*2) <$> counties in
  county_pairs ← mapM pairs_of county_pops;
  let same_county := py_sum_float county_pairs in
  py_truediv_float same_county_same_district same_county.

(** [largest_intersection(pops)] *)
Definition largest_intersection (pops : dict) : result Q :=
  let counties := counties_of pops in
  county_maxes ← mapM (λ c, py_max (filter (in_county c) (items pops)).*2) counties;
  py_truediv (py_sum county_maxes) (py_sum (items pops).*2).

(** One round of the loop of [min_entropy]: the entropy term of a county.
    [districts] holds the keys of the county with their values; it is never
    empty, the county being taken from the keys. *)
Definition county_entropy (pops : dict) (c : county) : result float64 :=
  let districts := filter (in_county c) (items pops) in
  let county_size := py_sum districts.*2 in
  terms ← mapM (λ kv : key * Z,
                  r ← py_truediv kv.2 county_size;
                  x ← np_of_int kv.2;
                  mret (np_mul x (np_log2 r))) districts;
  mret (np_sum terms).

(** [min_entropy(pops)].  The sum of an empty list is the Python int [0], so
    with no county the last two lines are Python arithmetic, which raises on
    a zero divisor; otherwise the sum is a NumPy float and they are NumPy
    arithmetic, which does not. *)
Definition min_entropy (pops : dict) : result float64 :=
  let counties := counties_of pops in
  county_entropies ← mapM (county_entropy pops) counties;
  let total := py_sum (items pops).*2 in
  match county_entropies with
  | [] =>
      c_entropy ← py_truediv ((-1) * 0) total;
      r ← py_truediv_float 1 (1 + c_entropy)%Q;
      mret (of_float r)
  | _ =>
      t ← np_of_int total;
      let c_entropy := np_div (np_mul (of_int (-1)) (np_sum county_entropies)) t in
      mret (np_div (of_int 1) (np_add (of_int 1) c_entropy))
  end.

(** ** The quantities the specification speaks of

    These follow the specification's wording, not the code: they are what
    the results of the functions above are compared with. *)

(** Every population is a non-negative integer (the data model's invariant). *)
Definition nonneg (pops : dict) : Prop :=
  map_Forall (λ _ p, 0 ≤ p) pops.

(** Every population converts to a float. *)
Definition in_float_range (pops : dict) : Prop :=
  map_Forall (λ _ p, Z.abs p < float_overflow_bound) pops.

(** Every population is strictly positive. *)
Definition positive_pops (pops : dict) : Prop :=
  map_Forall (λ _ p, 0 < p) pops.

(** The counties that occur in the mapping. *)
Definition spec_counties (pops : dict) : gset string :=
  set_map (D := gset string) fst (dom pops).

(** A county's total population: the sum of its intersection values across
    all the districts it overlaps. *)
Definition spec_county_total (pops : dict) (c : county) : Z :=
  map_fold (λ k p acc, if decide (k.1 = c) then p + acc else acc) 0 pops.

(** The population of the whole mapping. *)
Definition spec_grand_total (pops : dict) : Z :=
  map_fold (λ _ p acc, p + acc) 0 pops.

(** C(n,2), the number of unordered pairs among [n] individuals. *)
Definition choose2 (n : Z) : Z := n * (n - 1) / 2.

(** Pairs in the same county and the same district. *)
Definition spec_pairs_same_district (pops : dict) : Z :=
  map_fold (λ _ p acc, choose2 p + acc) 0 pops.

(** Pairs in the same county. *)
Definition spec_pairs_same_county (pops : dict) : Z :=
  set_fold (λ c acc, choose2 (spec_county_total pops c) + acc) 0 (spec_counties pops).

(** No county is split: each county meets exactly one district. *)
Definition unsplit (pops : dict) : Prop :=
  ∀ c d1 d2, is_Some (pops !! (c, d1)) → is_Some (pops !! (c, d2)) → d1 = d2.

(** County [c] is split: it meets two different districts. *)
Definition is_split (pops : dict) (c : county) : Prop :=
  ∃ d1 d2, d1 ≠ d2 ∧ is_Some (pops !! (c, d1)) ∧ is_Some (pops !! (c, d2)).

(** [m] is the largest single intersection population of county [c]. *)
Definition is_county_max (pops : dict) (c : county) (m : Z) : Prop :=
  (∃ d, pops !! (c, d) = Some m) ∧ ∀ d p, pops !! (c, d) = Some p → p ≤ m.

(** The sum over the counties of a per-county integer. *)
Definition spec_sum_counties (pops : dict) (f : county → Z) : Z :=
  set_fold (λ c acc, f c + acc) 0 (spec_counties pops).

(** The base-2 logarithm. *)
Definition log2 (x : R) : R := (ln x / ln 2)%R.

(** The entropy term of a county: the sum of [p * log2 (p / P)] over its
    intersections, [P] being the county's total. *)
Definition spec_county_term (pops : dict) (c : county) : R :=
  map_fold (λ k p acc,
              if decide (k.1 = c)
              then (IZR p * log2 (IZR p / IZR (spec_county_total pops c)) + acc)%R
              else acc) 0%R pops.

(** The conditional entropy of the district partition given the county
    partition, in bits. *)
Definition spec_cond_entropy (pops : dict) : R :=
  (- set_fold (λ c acc, spec_county_term pops c + acc) 0 (spec_counties pops)
   / IZR (spec_grand_total pops))%R.

(** The mapping that [threshold] leaves behind: the entries that are not
    below the threshold. *)
Definition spec_filtered (pops : dict) (t : Z) : gmap (string * string) Z :=
  filter (λ kv : key * Z, ¬ kv.2 < t) pops.

(** Finite sums over a list, of integers and of reals. *)
Definition sum_with {A} (f : A → Z) (l : list A) : Z :=
  foldr (λ x acc, f x + acc) 0 l.

Definition Rsum_with {A} (f : A → R) (l : list A) : R :=
  foldr (λ x acc, (f x + acc)%R) 0%R l.

(** The largest intersection of a county as the code finds it ([0] stands
    for the exception, which no county of the mapping raises). *)
Definition county_max (pops : dict) (c : county) : Z :=
  match py_max (filter (in_county c) (items pops)).*2 with
  | Ok m => m
  | Raise _ => 0
  end.

(** The value of [i * (i - 1) / 2] when the division does not overflow. *)
Definition pairs_value (i : Z) : Q := (inject_Z (i * (i - 1)) / inject_Z 2)%Q.

(** One term of the inner sum of [min_entropy], for an intersection of
    population [p] in a county of total [P], and the inner sum itself, when
    no division raises. *)
Definition entropy_term (P p : Z) : float64 :=
  np_mul (of_int p) (np_log2 (inject_Z p / inject_Z P)%Q).

Definition county_term (pops : dict) (c : county) : float64 :=
  np_sum (entropy_term (spec_county_total pops c)
            <$> (filter (in_county c) (items pops)).*2).

(** ** Concrete mappings *)

(** [{("A","1"): 60, ("A","2"): 40}] *)
Definition pops_60_40 : gmap (string * string) Z :=
  <[("A","1") := 60]> (<[("A","2") := 40]> ∅).

(** [{("A","1"): 100, ("A","2"): 0, ("B","1"): 50}] *)
Definition pops_100_0_50 : gmap (string * string) Z :=
  <[("A","1") := 100]> (<[("A","2") := 0]> (<[("B","1") := 50]> ∅)).

(** [{("A","1"): 100, ("B","1"): 50}] *)
Definition pops_100_50 : gmap (string * string) Z :=
  <[("A","1") := 100]> (<[("B","1") := 50]> ∅).

(** [{("A","1"): 50, ("A","2"): 50}] *)
Definition pops_50_50 : gmap (string * string) Z :=
  <[("A","1") := 50]> (<[("A","2") := 50]> ∅).

(** [{("A","1"): 60}] *)
Definition pops_60 : gmap (string * string) Z := {[ ("A","1") := 60 ]}.

(** [{("A","1"): 60, ("A","2"): 0}] *)
Definition pops_60_0 : gmap (string * string) Z :=
  <[("A","1") := 60]> (<[("A","2") := 0]> ∅).

(** [{("A","1"): 0, ("B","1"): 5}] *)
Definition pops_0_5 : gmap (string * string) Z :=
  <[("A","1") := 0]> (<[("B","1") := 5]> ∅).

(** [{("A","1"): -3, ("A","2"): 10}] *)
Definition pops_neg : gmap (string * string) Z :=
  <[("A","1") := -3]> (<[("A","2") := 10]> ∅).

(** [{("A","1"): 5, ("B","1"): -5}] *)
Definition pops_5_neg5 : gmap (string * string) Z :=
  <[("A","1") := 5]> (<[("B","1") := -5]> ∅).

(** [{("A","1"): 10**200}] *)
Definition pops_1e200 : gmap (string * string) Z := {[ ("A","1") := 10 ^ 200 ]}.

(** [{("A","1"): 10**400}] *)
Definition pops_1e400 : gmap (string * string) Z := {[ ("A","1") := 10 ^ 400 ]}.

(** [{("A","1"): 0}] *)
Definition pops_zero : gmap (string * string) Z := {[ ("A","1") := 0 ]}.

(** * Properties *)

(** ** The noise filter *)

Section threshold_facts.
Implicit Types (h : gmap positive (gmap (string * string) Z)).
Implicit Types (d : gmap (string * string) Z) (k : string * string).

Lemma lookup_foldl_delete d (ks : list (string * string)) k :
  foldl (λ d' k', delete k' d') d ks !! k
  = if decide (k ∈ ks) then None else d !! k.
Proof.
  revert d. induction ks as [|k0 ks IH]; intros d; cbn [foldl].
  - case_decide; [set_solver | done].
  - rewrite IH. destruct (decide (k = k0)) as [->|Hne].
    + rewrite lookup_delete_eq.
      destruct (decide (k0 ∈ ks)), (decide (k0 ∈ k0 :: ks)); set_solver.
    + rewrite lookup_delete_ne by done.
      destruct (decide (k ∈ ks)), (decide (k ∈ k0 :: ks)); set_solver.
Qed.

Lemma for_each_dict_pop l ks h d :
  h !! l = Some d →
  for_each (dict_pop l) ks h
  = Ok (tt, <[l := foldl (λ d' k', delete k' d') d ks]> h).
Proof.
  revert h d. induction ks as [|k ks IH]; intros h d Hl; simpl.
  - unfold py_ret. by rewrite insert_id.
  - unfold py_bind, dict_pop. rewrite (lookup_total_correct _ _ _ Hl).
    rewrite (IH _ (delete k d)) by apply lookup_insert_eq.
    by rewrite insert_insert_eq.
Qed.

Lemma elem_of_keys_below d t k :
  k ∈ (filter (λ kv : (string * string) * Z, kv.2 < t) (items d)).*1
  ↔ ∃ p, d !! k = Some p ∧ p < t.
Proof.
  rewrite list_elem_of_fmap. split.
  - intros [[k' p] [-> [Hp Hin]%list_elem_of_filter]].
    apply elem_of_map_to_list in Hin. eauto.
  - intros [p [Hk Hp]]. exists (k, p). split; [done|].
    apply list_elem_of_filter. split; [done|]. by apply elem_of_map_to_list.
Qed.

Lemma foldl_delete_keys_below d t :
  foldl (λ d' k', delete k' d') d
        (filter (λ kv : (string * string) * Z, kv.2 < t) (items d)).*1
  = spec_filtered d t.
Proof.
  apply map_eq; intros k. rewrite lookup_foldl_delete. unfold spec_filtered.
  case_decide as Hin.
  - apply elem_of_keys_below in Hin as [p [Hk Hp]]. symmetry.
    apply map_lookup_filter_None. right. intros p' Hk'. simpl. naive_solver.
  - destruct (d !! k) as [p|] eqn:Hk; symmetry.
    + apply map_lookup_filter_Some. split; [done|]. simpl. intros Hp.
      apply Hin, elem_of_keys_below. eauto.
    + apply map_lookup_filter_None. by left.
Qed.

(** The whole effect of a call: the dictionary behind the reference is
    replaced by its filtered version and the reference is returned. *)
Lemma threshold_run l t h d :
  h !! l = Some d →
  threshold l t h = Ok (l, <[l := spec_filtered d t]> h).
Proof.
  intros Hl. unfold threshold, py_bind, deref.
  rewrite (lookup_total_correct _ _ _ Hl).
  rewrite (for_each_dict_pop _ _ _ _ Hl). unfold py_ret.
  by rewrite foldl_delete_keys_below.
Qed.

Lemma lookup_spec_filtered d t k p :
  spec_filtered d t !! k = Some p ↔ d !! k = Some p ∧ t ≤ p.
Proof.
  unfold spec_filtered. rewrite map_lookup_filter_Some. simpl. intuition lia.
Qed.

Lemma spec_filtered_id d t :
  (∀ k p, d !! k = Some p → t ≤ p) → spec_filtered d t = d.
Proof.
  intros Hall. apply map_eq; intros k.
  destruct (d !! k) as [p|] eqn:Hk.
  - apply lookup_spec_filtered. eauto.
  - apply map_lookup_filter_None. by left.
Qed.
End threshold_facts.

(** C4: for every mapping and every threshold [t], [threshold] leaves exactly
    the entries whose value is not strictly below [t]: an entry with value
    below [t] is removed, an entry with value at least [t] (also exactly
    [t]) is kept, and no value is changed. *)
Theorem threshold_keeps_exactly
    (h : gmap positive (gmap (string * string) Z)) (l : positive)
    (pops : gmap (string * string) Z) (t : Z) :
  h !! l = Some pops →
  ∃ h' kept,
    threshold l t h = Ok (l, h') ∧ h' !! l = Some kept ∧
    (∀ k p, kept !! k = Some p ↔ pops !! k = Some p ∧ ¬ p < t) ∧
    (∀ k p, pops !! k = Some p → p < t → kept !! k = None) ∧
    (∀ k p, pops !! k = Some p → t ≤ p → kept !! k = Some p).
Proof.
  intros Hl. exists (<[l := spec_filtered pops t]> h), (spec_filtered pops t).
  split; [by apply threshold_run|]. split; [apply lookup_insert_eq|].
  split; [|split].
  - intros k p. rewrite lookup_spec_filtered. intuition lia.
  - intros k p Hk Hp. destruct (spec_filtered pops t !! k) as [p'|] eqn:Hk'; [|done].
    apply lookup_spec_filtered in Hk' as [Hk' ?]. simplify_eq. lia.
  - intros k p Hk Hp. by apply lookup_spec_filtered.
Qed.

Lemma threshold_keeps_exactly_witness :
  ∃ h' kept,
    threshold 1%positive 50 {[ 1%positive := pops_100_0_50 ]} = Ok (1%positive, h') ∧
    h' !! 1%positive = Some kept ∧
    (∀ k p, kept !! k = Some p ↔ pops_100_0_50 !! k = Some p ∧ ¬ p < 50) ∧
    (∀ k p, pops_100_0_50 !! k = Some p → p < 50 → kept !! k = None) ∧
    (∀ k p, pops_100_0_50 !! k = Some p → 50 ≤ p → kept !! k = Some p).
Proof. apply threshold_keeps_exactly. reflexivity. Defined.

(** C9: for every mapping whose values are all non-negative, the number of
    intersections after filtering at threshold 0 is the number of entries of
    the original mapping. *)
Theorem threshold_zero_preserves_count
    (h : gmap positive (gmap (string * string) Z)) (l : positive)
    (pops : gmap (string * string) Z) :
  h !! l = Some pops →
  nonneg pops →
  ∃ h', threshold l 0 h = Ok (l, h') ∧
        county_intersections (h' !!! l) = size pops.
Proof.
  intros Hl Hnn. exists (<[l := spec_filtered pops 0]> h).
  split; [by apply threshold_run|].
  rewrite lookup_total_insert_eq. unfold county_intersections.
  rewrite spec_filtered_id; [done|]. intros k p Hk. exact (Hnn k p Hk).
Qed.

Lemma threshold_zero_preserves_count_witness :
  ∃ h', threshold 1%positive 0 {[ 1%positive := pops_100_0_50 ]} = Ok (1%positive, h') ∧
        county_intersections (h' !!! 1%positive) = size pops_100_0_50.
Proof.
  apply threshold_zero_preserves_count; [reflexivity|].
  apply (bool_decide_unpack _). vm_compute. exact I.
Defined.

(** C10: [threshold] works on the caller's own dictionary.  The reference it
    returns is the one it was given; after the call the dictionary behind
    that reference no longer has the entries below the threshold, so every
    holder of the reference sees them gone; no dictionary is allocated and
    no other dictionary changes. *)
Theorem threshold_mutates_in_place
    (h : gmap positive (gmap (string * string) Z)) (l : positive)
    (pops : gmap (string * string) Z) (t : Z) :
  h !! l = Some pops →
  ∃ h', threshold l t h = Ok (l, h') ∧
        h' !! l = Some (spec_filtered pops t) ∧
        (∀ k p, pops !! k = Some p → p < t → (h' !!! l) !! k = None) ∧
        dom h' = dom h ∧
        (∀ l', l' ≠ l → h' !! l' = h !! l').
Proof.
  intros Hl. exists (<[l := spec_filtered pops t]> h).
  split; [by apply threshold_run|]. split; [apply lookup_insert_eq|].
  split; [|split].
  - intros k p Hk Hp. rewrite lookup_total_insert_eq.
    apply map_lookup_filter_None. right. intros p' Hk'. simpl. naive_solver.
  - rewrite dom_insert_L. apply elem_of_dom_2 in Hl. set_solver.
  - intros l' Hne. by rewrite lookup_insert_ne.
Qed.

Lemma threshold_mutates_in_place_witness :
  ∃ h', threshold 1%positive 50 {[ 1%positive := pops_100_0_50 ]} = Ok (1%positive, h') ∧
        h' !! 1%positive = Some (spec_filtered pops_100_0_50 50) ∧
        (∀ k p, pops_100_0_50 !! k = Some p → p < 50 → (h' !!! 1%positive) !! k = None) ∧
        dom h' = dom ({[ 1%positive := pops_100_0_50 ]} : gmap positive (gmap (string * string) Z)) ∧
        (∀ l', l' ≠ 1%positive → h' !! l' = ({[ 1%positive := pops_100_0_50 ]} : gmap positive (gmap (string * string) Z)) !! l').
Proof. apply threshold_mutates_in_place. reflexivity. Defined.

(** ** Sums, counties and grouping *)

Lemma foldl_Zadd (l : list Z) (a : Z) : foldl Z.add a l = a + foldr Z.add 0 l.
Proof.
  revert a. induction l as [|x l IH]; intros a; simpl; [lia|]. rewrite IH. lia.
Qed.

Lemma py_sum_foldr (l : list Z) : py_sum l = foldr Z.add 0 l.
Proof. unfold py_sum. rewrite foldl_Zadd. lia. Qed.

Lemma py_sum_cons (x : Z) (l : list Z) : py_sum (x :: l) = x + py_sum l.
Proof. by rewrite !py_sum_foldr. Qed.

Lemma py_sum_ones {A} (l : list A) :
  py_sum ((λ _, 1) <$> l) = Z.of_nat (length l).
Proof.
  induction l as [|x l IH]; [done|].
  rewrite fmap_cons, py_sum_cons, IH. simpl length. lia.
Qed.

Lemma elem_of_items (pops : gmap (string * string) Z) k p :
  (k, p) ∈ items pops ↔ pops !! k = Some p.
Proof. apply elem_of_map_to_list. Qed.

Lemma NoDup_items_keys (pops : gmap (string * string) Z) : NoDup (items pops).*1.
Proof. apply NoDup_fst_map_to_list. Qed.

Lemma elem_of_spec_counties (pops : gmap (string * string) Z) c :
  c ∈ spec_counties pops ↔ ∃ d, is_Some (pops !! (c, d)).
Proof.
  unfold spec_counties. rewrite elem_of_map. split.
  - intros [[c' d] [-> Hk%elem_of_dom]]. by exists d.
  - intros [d Hk]. exists (c, d). split; [done|]. by apply elem_of_dom.
Qed.

(** The list of counties the code iterates over enumerates the set of
    counties of the specification. *)
Lemma counties_of_spec (pops : gmap (string * string) Z) :
  counties_of pops = elements (spec_counties pops).
Proof.
  unfold counties_of. f_equal. apply set_eq; intros c.
  rewrite elem_of_list_to_set, elem_of_spec_counties, list_elem_of_fmap. split.
  - intros [k [-> [[k' p] [-> Hin]]%list_elem_of_fmap]].
    apply elem_of_items in Hin. destruct k' as [c' d]. simpl. eauto.
  - intros [d [p Hk]]. exists (c, d). split; [done|].
    apply list_elem_of_fmap. exists ((c, d), p). split; [done|].
    by apply elem_of_items.
Qed.

Lemma elem_of_counties_of (pops : gmap (string * string) Z) c :
  c ∈ counties_of pops ↔ ∃ d, is_Some (pops !! (c, d)).
Proof. by rewrite counties_of_spec, elem_of_elements, elem_of_spec_counties. Qed.

Lemma NoDup_counties_of (pops : gmap (string * string) Z) : NoDup (counties_of pops).
Proof. rewrite counties_of_spec. apply NoDup_elements. Qed.

Lemma elem_of_county_items (pops : gmap (string * string) Z) c k p :
  (k, p) ∈ filter (in_county c) (items pops) ↔ k.1 = c ∧ pops !! k = Some p.
Proof. by rewrite list_elem_of_filter, elem_of_items. Qed.

Lemma NoDup_county_items_keys (pops : gmap (string * string) Z) c :
  NoDup (filter (in_county c) (items pops)).*1.
Proof.
  apply (sublist_NoDup _ (items pops).*1); [apply NoDup_items_keys|].
  apply fmap_sublist. apply sublist_filter.
Qed.

(** A county of the mapping has at least one intersection. *)
Lemma county_items_nonempty (pops : gmap (string * string) Z) c :
  c ∈ counties_of pops → filter (in_county c) (items pops) ≠ [].
Proof.
  intros [d [p Hk]]%elem_of_counties_of Hnil.
  assert (Hin : ((c, d), p) ∈ filter (in_county c) (items pops))
    by by apply elem_of_county_items.
  rewrite Hnil in Hin. by apply not_elem_of_nil in Hin.
Qed.

(** ** The split count *)

Lemma county_items_split (pops : gmap (string * string) Z) c :
  (1 < length (filter (in_county c) (items pops)))%nat ↔ is_split pops c.
Proof.
  pose proof (NoDup_county_items_keys pops c) as Hnd. split.
  - intros Hlen.
    destruct (filter (in_county c) (items pops)) as [|[[c1 d1] p1] [|[[c2 d2] p2] l]] eqn:Hl;
      simpl in Hlen; [lia | lia |].
    assert (H1 : ((c1, d1), p1) ∈ filter (in_county c) (items pops))
      by (rewrite Hl; set_solver).
    assert (H2 : ((c2, d2), p2) ∈ filter (in_county c) (items pops))
      by (rewrite Hl; set_solver).
    apply elem_of_county_items in H1 as [? H1], H2 as [? H2]. simpl in *. subst c1 c2.
    exists d1, d2. split; [|eauto].
    intros ->. apply NoDup_cons in Hnd as [Hnd _]. set_solver.
  - intros (d1 & d2 & Hne & [p1 H1] & [p2 H2]).
    assert (Hin1 : ((c, d1), p1) ∈ filter (in_county c) (items pops))
      by by apply elem_of_county_items.
    assert (Hin2 : ((c, d2), p2) ∈ filter (in_county c) (items pops))
      by by apply elem_of_county_items.
    destruct (filter (in_county c) (items pops)) as [|x [|y l]]; simpl; [set_solver | | lia].
    apply list_elem_of_singleton in Hin1, Hin2. congruence.
Qed.

(** C8: for every mapping, [counties_split] is the number of distinct
    counties that occur as the first component of two or more keys, that is
    of counties that meet more than one district. *)
Theorem counties_split_counts_split_counties (pops : gmap (string * string) Z) :
  ∃ S : gset string,
    (∀ c, c ∈ S ↔ is_split pops c) ∧
    counties_split pops = Z.of_nat (size S).
Proof.
  set (P := λ c : string, (1 < length (filter (in_county c) (items pops)))%nat).
  exists (list_to_set (filter P (counties_of pops))). split.
  - intros c. rewrite elem_of_list_to_set, list_elem_of_filter. unfold P.
    rewrite county_items_split, elem_of_counties_of. split; [tauto|].
    intros Hs. split; [done|]. destruct Hs as (d1 & _ & _ & H1 & _). eauto.
  - unfold counties_split. fold P. rewrite py_sum_ones. f_equal.
    symmetry. apply size_list_to_set, NoDup_filter, NoDup_counties_of.
Qed.

(** ** The specification's sums, as sums over the lists the code walks *)

Section sums.
Context {A : Type}.
Implicit Types (f g : A → Z) (l : list A).

Lemma sum_with_cons f x l : sum_with f (x :: l) = f x + sum_with f l.
Proof. done. Qed.

Lemma sum_with_py_sum f l : py_sum (f <$> l) = sum_with f l.
Proof.
  rewrite py_sum_foldr. induction l as [|x l IH]; [done|].
  rewrite fmap_cons. simpl. by rewrite IH.
Qed.

Lemma sum_with_ext f g l :
  (∀ x, x ∈ l → f x = g x) → sum_with f l = sum_with g l.
Proof.
  induction l as [|x l IH]; intros Hfg; [done|].
  rewrite !sum_with_cons, Hfg, IH; [done | | set_solver].
  intros y Hy. apply Hfg. set_solver.
Qed.

Lemma sum_with_le f g l :
  (∀ x, x ∈ l → f x ≤ g x) → sum_with f l ≤ sum_with g l.
Proof.
  induction l as [|x l IH]; intros Hfg; [done|].
  rewrite !sum_with_cons.
  assert (f x ≤ g x) by (apply Hfg; set_solver).
  assert (sum_with f l ≤ sum_with g l) by (apply IH; intros y Hy; apply Hfg; set_solver).
  lia.
Qed.

Lemma sum_with_nonneg f l : (∀ x, x ∈ l → 0 ≤ f x) → 0 ≤ sum_with f l.
Proof.
  induction l as [|x l IH]; intros Hf; [done|].
  rewrite sum_with_cons.
  assert (0 ≤ f x) by (apply Hf; set_solver).
  assert (0 ≤ sum_with f l) by (apply IH; intros y Hy; apply Hf; set_solver).
  lia.
Qed.

Lemma sum_with_zero f l : (∀ x, x ∈ l → f x = 0) → sum_with f l = 0.
Proof.
  induction l as [|x l IH]; intros Hf; [done|].
  rewrite sum_with_cons, Hf, IH; [done | | set_solver].
  intros y Hy. apply Hf. set_solver.
Qed.

Lemma sum_with_plus f g l :
  sum_with (λ x, f x + g x) l = sum_with f l + sum_with g l.
Proof.
  induction l as [|x l IH]; [done|]. rewrite !sum_with_cons, IH. lia.
Qed.

Lemma sum_with_elem_le f l x :
  (∀ y, y ∈ l → 0 ≤ f y) → x ∈ l → f x ≤ sum_with f l.
Proof.
  induction l as [|y l IH]; intros Hf Hx; [by apply not_elem_of_nil in Hx|].
  rewrite sum_with_cons.
  assert (0 ≤ f y) by (apply Hf; set_solver).
  assert (0 ≤ sum_with f l) by (apply sum_with_nonneg; intros z Hz; apply Hf; set_solver).
  apply elem_of_cons in Hx as [->|Hx]; [lia|].
  assert (f x ≤ sum_with f l) by (apply IH; [intros z Hz; apply Hf; set_solver | done]).
  lia.
Qed.
End sums.

(** A value that sits at exactly one place of a duplicate-free list. *)
Lemma sum_with_indicator (cs : list string) (c0 : string) (v : Z) :
  NoDup cs → c0 ∈ cs →
  sum_with (λ c, if decide (c0 = c) then v else 0) cs = v.
Proof.
  induction 1 as [|c cs Hnin Hnd IH]; intros Hin; [by apply not_elem_of_nil in Hin|].
  rewrite sum_with_cons. destruct (decide (c0 = c)) as [->|Hne].
  - rewrite sum_with_zero; [lia|]. intros c' Hc'. case_decide; [congruence | done].
  - rewrite IH; [lia | set_solver].
Qed.

(** Grouping: a sum over all the entries is the sum, over the counties, of
    the sums over each county's entries. *)
Lemma sum_with_by_county (g : (string * string) * Z → Z)
    (l : list ((string * string) * Z)) (cs : list string) :
  NoDup cs → (∀ kv, kv ∈ l → kv.1.1 ∈ cs) →
  sum_with g l = sum_with (λ c, sum_with g (filter (in_county c) l)) cs.
Proof.
  intros Hnd. induction l as [|x l IH]; intros Hin.
  - symmetry. by apply sum_with_zero.
  - rewrite sum_with_cons, IH by (intros kv Hkv; apply Hin; set_solver).
    rewrite <- (sum_with_indicator cs x.1.1 (g x) Hnd) at 1 by (apply Hin; set_solver).
    rewrite <- sum_with_plus. apply sum_with_ext. intros c _.
    rewrite filter_cons. unfold in_county at 2.
    destruct (decide (x.1.1 = c)); [by rewrite sum_with_cons | lia].
Qed.

Section spec_as_lists.
Implicit Types (pops : gmap (string * string) Z) (c : string).

Lemma spec_county_total_sum pops c :
  spec_county_total pops c = sum_with snd (filter (in_county c) (items pops)).
Proof.
  unfold spec_county_total, items. rewrite map_fold_foldr.
  induction (map_to_list pops) as [|[k p] l IH]; [done|].
  rewrite filter_cons. unfold in_county at 1. simpl.
  destruct (decide (k.1 = c)); [rewrite sum_with_cons|]; by rewrite IH.
Qed.

Lemma spec_county_total_py_sum pops c :
  py_sum (filter (in_county c) (items pops)).*2 = spec_county_total pops c.
Proof. by rewrite sum_with_py_sum, spec_county_total_sum. Qed.

Lemma spec_grand_total_sum pops : spec_grand_total pops = sum_with snd (items pops).
Proof.
  unfold spec_grand_total, items. rewrite map_fold_foldr.
  induction (map_to_list pops) as [|[k p] l IH]; [done|]. simpl. by rewrite IH.
Qed.

Lemma spec_grand_total_py_sum pops : py_sum (items pops).*2 = spec_grand_total pops.
Proof. by rewrite sum_with_py_sum, spec_grand_total_sum. Qed.

Lemma spec_pairs_same_district_sum pops :
  spec_pairs_same_district pops = sum_with (λ kv, choose2 kv.2) (items pops).
Proof.
  unfold spec_pairs_same_district, items. rewrite map_fold_foldr.
  induction (map_to_list pops) as [|[k p] l IH]; [done|]. simpl. by rewrite IH.
Qed.

Lemma spec_pairs_same_county_sum pops :
  spec_pairs_same_county pops
  = sum_with (λ c, choose2 (spec_county_total pops c)) (counties_of pops).
Proof. by rewrite counties_of_spec. Qed.

Lemma spec_sum_counties_sum pops f :
  spec_sum_counties pops f = sum_with f (counties_of pops).
Proof. by rewrite counties_of_spec. Qed.

Lemma items_county_in_counties pops kv :
  kv ∈ items pops → kv.1.1 ∈ counties_of pops.
Proof.
  destruct kv as [[c d] p]. intros Hin%elem_of_items.
  apply elem_of_counties_of. simpl. eauto.
Qed.

(** The grand total is the sum of the county totals. *)
Lemma spec_grand_total_by_county pops :
  spec_grand_total pops = sum_with (spec_county_total pops) (counties_of pops).
Proof.
  rewrite spec_grand_total_sum.
  rewrite (sum_with_by_county snd _ (counties_of pops));
    [| apply NoDup_counties_of | apply items_county_in_counties].
  apply sum_with_ext. intros c _. by rewrite spec_county_total_sum.
Qed.

Lemma nonneg_county_items pops c kv :
  nonneg pops → kv ∈ filter (in_county c) (items pops) → 0 ≤ kv.2.
Proof.
  destruct kv as [k p]. intros Hnn [_ Hk]%elem_of_county_items. exact (Hnn k p Hk).
Qed.

Lemma spec_county_total_nonneg pops c : nonneg pops → 0 ≤ spec_county_total pops c.
Proof.
  intros Hnn. rewrite spec_county_total_sum. apply sum_with_nonneg.
  intros kv Hkv. by eapply nonneg_county_items.
Qed.
End spec_as_lists.

Lemma sum_with_fmap {A B} (f : B → Z) (g : A → B) (l : list A) :
  sum_with f (g <$> l) = sum_with (λ x, f (g x)) l.
Proof. induction l as [|x l IH]; [done|]. rewrite fmap_cons, !sum_with_cons. by rewrite IH. Qed.

Lemma county_total_in_counties (pops : gmap (string * string) Z) c :
  spec_county_total pops c ≠ 0 → c ∈ counties_of pops.
Proof.
  rewrite spec_county_total_sum. intros Hne.
  destruct (filter (in_county c) (items pops)) as [|[k p] l] eqn:Hl; [done|].
  assert (Hin : (k, p) ∈ filter (in_county c) (items pops)) by (rewrite Hl; set_solver).
  apply elem_of_county_items in Hin as [<- Hk]. destruct k as [c' d].
  apply elem_of_counties_of. simpl. eauto.
Qed.

(** ** Counting pairs *)

Lemma choose2_double (n : Z) : 2 * choose2 n = n * (n - 1).
Proof.
  unfold choose2. destruct (Z.Even_or_Odd n) as [[k ->]|[k ->]].
  - replace (2 * k * (2 * k - 1)) with (k * (2 * k - 1) * 2) by lia.
    rewrite Z.div_mul by done. lia.
  - replace ((2 * k + 1) * (2 * k + 1 - 1)) with ((2 * k + 1) * k * 2) by lia.
    rewrite Z.div_mul by done. lia.
Qed.

Lemma choose2_nonneg (n : Z) : 0 ≤ n → 0 ≤ choose2 n.
Proof. intros Hn. pose proof (choose2_double n). nia. Qed.

Lemma choose2_pos (n : Z) : 2 ≤ n → 1 ≤ choose2 n.
Proof. intros Hn. pose proof (choose2_double n). nia. Qed.

Lemma choose2_small (n : Z) : 0 ≤ n ≤ 1 → choose2 n = 0.
Proof. intros Hn. pose proof (choose2_double n). nia. Qed.

Lemma choose2_superadditive (a b : Z) :
  0 ≤ a → 0 ≤ b → choose2 a + choose2 b ≤ choose2 (a + b).
Proof.
  intros Ha Hb.
  pose proof (choose2_double a). pose proof (choose2_double b).
  pose proof (choose2_double (a + b)). nia.
Qed.

(** The pairs inside the parts are pairs of the whole. *)
Lemma choose2_sum_le {A} (f : A → Z) (l : list A) :
  (∀ x, x ∈ l → 0 ≤ f x) →
  sum_with (λ x, choose2 (f x)) l ≤ choose2 (sum_with f l).
Proof.
  induction l as [|x l IH]; intros Hf; [done|].
  rewrite !sum_with_cons.
  assert (0 ≤ f x) by (apply Hf; set_solver).
  assert (0 ≤ sum_with f l) by (apply sum_with_nonneg; intros y Hy; apply Hf; set_solver).
  assert (sum_with (λ x, choose2 (f x)) l ≤ choose2 (sum_with f l))
    by (apply IH; intros y Hy; apply Hf; set_solver).
  pose proof (choose2_superadditive (f x) (sum_with f l)). lia.
Qed.

(** A comprehension none of whose elements raises. *)
Lemma mapM_result_Ok {A B} (f : A → result B) (g : A → B) (l : list A) :
  (∀ x, x ∈ l → f x = Ok (g x)) → mapM f l = Ok (g <$> l).
Proof.
  induction l as [|x l IH]; intros Hf; [done|].
  simpl. rewrite Hf by set_solver. simpl. rewrite IH; [done|].
  intros y Hy. apply Hf. set_solver.
Qed.

(** ** True division of integers *)

Lemma float_exact_lt_overflow : 2 * float_exact_bound < float_overflow_bound.
Proof. by vm_compute. Qed.

Lemma float_exact_bound_pos : 0 < float_exact_bound.
Proof. by vm_compute. Qed.

Lemma py_truediv_zero (a : Z) : py_truediv a 0 = Raise ZeroDivisionError.
Proof. done. Qed.

Lemma py_truediv_ok (a b : Z) :
  b ≠ 0 → Z.abs a < float_overflow_bound * Z.abs b →
  py_truediv a b = Ok (inject_Z a / inject_Z b)%Q.
Proof.
  intros Hb Hab. unfold py_truediv.
  rewrite decide_False by done. by rewrite decide_False by lia.
Qed.

(** A quotient of at most 1 is in range. *)
Lemma py_truediv_le (a b : Z) :
  0 ≤ a ≤ b → 0 < b → py_truediv a b = Ok (inject_Z a / inject_Z b)%Q.
Proof.
  intros Hab Hb. apply py_truediv_ok; [lia|].
  pose proof float_exact_lt_overflow. pose proof float_exact_bound_pos. nia.
Qed.

Lemma np_of_int_ok (n : Z) :
  Z.abs n < float_overflow_bound → np_of_int n = Ok (of_int n).
Proof. intros Hn. unfold np_of_int. by rewrite decide_False by lia. Qed.

(** ** Counting pairs with floats *)

Lemma choose2_nonneg_all (n : Z) : 0 ≤ choose2 n.
Proof. pose proof (choose2_double n). nia. Qed.

Lemma pairs_of_ok (i : Z) :
  choose2 i ≤ float_exact_bound → pairs_of i = Ok (pairs_value i).
Proof.
  intros Hi. unfold pairs_of, pairs_value. apply py_truediv_ok; [done|].
  pose proof (choose2_double i). pose proof (choose2_nonneg_all i).
  pose proof float_exact_lt_overflow. lia.
Qed.

Lemma pairs_value_choose2 (i : Z) : (pairs_value i == inject_Z (choose2 i))%Q.
Proof.
  unfold pairs_value. rewrite <- choose2_double, inject_Z_mult.
  change (inject_Z 2) with 2%Q. field.
Qed.

Lemma foldl_Qplus (l : list Q) (a : Q) :
  (foldl Qplus a l == a + foldr Qplus 0 l)%Q.
Proof.
  revert a. induction l as [|x l IH]; intros a; simpl.
  - ring.
  - rewrite IH. ring.
Qed.

Lemma py_sum_float_pairs (l : list Z) :
  (py_sum_float (pairs_value <$> l) == inject_Z (sum_with choose2 l))%Q.
Proof.
  unfold py_sum_float. rewrite foldl_Qplus, Qplus_0_l.
  induction l as [|x l IH]; [done|].
  rewrite fmap_cons, sum_with_cons, inject_Z_plus. simpl.
  by rewrite IH, pairs_value_choose2.
Qed.

(** The pair counts of a list of integers, when every count is a float
    exactly: no division overflows. *)
Lemma mapM_pairs_of (l : list Z) :
  sum_with choose2 l ≤ float_exact_bound →
  mapM pairs_of l = Ok (pairs_value <$> l).
Proof.
  intros Hsum. apply mapM_result_Ok. intros x Hx. apply pairs_of_ok.
  etrans; [|exact Hsum].
  apply (sum_with_elem_le choose2); [|done]. intros y _. apply choose2_nonneg_all.
Qed.

Lemma pairs_same_district_list (pops : gmap (string * string) Z) :
  sum_with choose2 (items pops).*2 = spec_pairs_same_district pops.
Proof. by rewrite sum_with_fmap, spec_pairs_same_district_sum. Qed.

Lemma pairs_same_county_list (pops : gmap (string * string) Z) :
  sum_with choose2 ((λ c, py_sum (filter (in_county c) (items pops)).*2)
                      <$> counties_of pops)
  = spec_pairs_same_county pops.
Proof.
  rewrite sum_with_fmap, spec_pairs_same_county_sum.
  apply sum_with_ext. intros c _. by rewrite spec_county_total_py_sum.
Qed.

(** What [preserved_pairs] does when both pair counts are floats exactly,
    whatever the signs of the populations: it raises exactly when the count
    of same-county pairs is zero, and otherwise returns the quotient of the
    two counts. *)
Lemma preserved_pairs_cases (pops : gmap (string * string) Z) :
  spec_pairs_same_district pops ≤ float_exact_bound →
  spec_pairs_same_county pops ≤ float_exact_bound →
  if decide (spec_pairs_same_county pops = 0)
  then preserved_pairs pops = Raise ZeroDivisionError
  else ∃ q, preserved_pairs pops = Ok q ∧
            (q == inject_Z (spec_pairs_same_district pops)
                  / inject_Z (spec_pairs_same_county pops))%Q.
Proof.
  intros Hn Hd. unfold preserved_pairs.
  rewrite (mapM_pairs_of (items pops).*2) by (by rewrite pairs_same_district_list).
  cbn [mbind result_bind].
  rewrite mapM_pairs_of by (by rewrite pairs_same_county_list).
  cbn [mbind result_bind]. unfold py_truediv_float.
  assert (Hnum := py_sum_float_pairs (items pops).*2).
  assert (Hden := py_sum_float_pairs
                    ((λ c, py_sum (filter (in_county c) (items pops)).*2)
                       <$> counties_of pops)).
  rewrite pairs_same_district_list in Hnum. rewrite pairs_same_county_list in Hden.
  case_decide as Hz.
  - rewrite Hz in Hden. apply Qeq_bool_iff in Hden.
    change (inject_Z 0) with 0%Q in Hden. by rewrite Hden.
  - destruct (Qeq_bool _ 0) eqn:Hb.
    + apply Qeq_bool_iff in Hb. rewrite Hden in Hb.
      destruct Hz. by apply inject_Z_injective.
    + eexists. split; [done|]. by rewrite Hnum, Hden.
Qed.

Lemma preserved_pairs_bounds (pops : gmap (string * string) Z) :
  nonneg pops →
  0 ≤ spec_pairs_same_district pops ≤ spec_pairs_same_county pops.
Proof.
  intros Hnn. rewrite spec_pairs_same_district_sum, spec_pairs_same_county_sum. split.
  - apply sum_with_nonneg. intros [k p] Hin%elem_of_items. apply choose2_nonneg.
    exact (Hnn k p Hin).
  - rewrite (sum_with_by_county _ _ (counties_of pops));
      [| apply NoDup_counties_of | apply items_county_in_counties].
    apply sum_with_le. intros c _. rewrite spec_county_total_sum.
    apply (choose2_sum_le snd). intros kv Hkv. by eapply nonneg_county_items.
Qed.

(** On non-negative populations the same-county count bounds both. *)
Lemma preserved_pairs_cases_nonneg (pops : gmap (string * string) Z) :
  nonneg pops →
  spec_pairs_same_county pops ≤ float_exact_bound →
  if decide (spec_pairs_same_county pops = 0)
  then preserved_pairs pops = Raise ZeroDivisionError
  else ∃ q, preserved_pairs pops = Ok q ∧
            (q == inject_Z (spec_pairs_same_district pops)
                  / inject_Z (spec_pairs_same_county pops))%Q.
Proof.
  intros Hnn Hd. apply preserved_pairs_cases; [|done].
  pose proof (preserved_pairs_bounds pops Hnn). lia.
Qed.

Lemma Qdiv_unit_interval (n d : Z) :
  0 ≤ n ≤ d → 0 < d → (0 <= inject_Z n / inject_Z d <= 1)%Q.
Proof.
  intros [Hn Hnd] Hd.
  assert (Hd' : (0 < inject_Z d)%Q) by (change 0%Q with (inject_Z 0); by rewrite <- Zlt_Qlt).
  split.
  - apply Qle_shift_div_l; [done|]. rewrite Qmult_0_l.
    change 0%Q with (inject_Z 0). by rewrite <- Zle_Qle.
  - apply Qle_shift_div_r; [done|]. rewrite Qmult_1_l. by rewrite <- Zle_Qle.
Qed.

(** C5, as stated, fails: [{("A","1"): 10**200}] is non-empty, its
    population is not negative and its county has a total of at least 2,
    yet [preserved_pairs] raises [OverflowError]: the quotient
    [i * (i - 1) / 2] is too large for a float. *)
Lemma preserved_pairs_overflows :
  pops_1e200 ≠ ∅ ∧ nonneg pops_1e200 ∧
  2 ≤ spec_county_total pops_1e200 "A" ∧
  preserved_pairs pops_1e200 = Raise OverflowError.
Proof.
  split; [|split; [|split]].
  - apply (bool_decide_unpack _). vm_compute. exact I.
  - apply (bool_decide_unpack _). vm_compute. exact I.
  - apply Z.leb_le. vm_compute. reflexivity.
  - vm_compute. reflexivity.
Qed.

(** C5, amended: for every non-empty mapping of non-negative populations in
    which some county has total population at least 2 and whose count of
    same-county pairs is at most 2^53 (so that every count is a float
    exactly), [preserved_pairs] returns the sum of C(p,2) over the entries
    divided by the sum of C(P,2) over the counties, [P] being the county's
    total; the result lies in [0,1], and on
    [{("A","1"): 60, ("A","2"): 40}] it is (1770+780)/4950. *)
Theorem preserved_pairs_formula (pops : gmap (string * string) Z) :
  pops ≠ ∅ →
  nonneg pops →
  (∃ c, 2 ≤ spec_county_total pops c) →
  spec_pairs_same_county pops ≤ float_exact_bound →
  ∃ q, preserved_pairs pops = Ok q ∧
       (q == inject_Z (spec_pairs_same_district pops)
             / inject_Z (spec_pairs_same_county pops))%Q ∧
       (0 <= q <= 1)%Q ∧
       (pops = pops_60_40 → (q == (1770 + 780) / 4950)%Q).
Proof.
  intros _ Hnn [c0 Hc0] Hexact.
  assert (Hden : 1 ≤ spec_pairs_same_county pops).
  { rewrite spec_pairs_same_county_sum.
    etrans; [apply (choose2_pos _ Hc0)|].
    apply (sum_with_elem_le (λ c, choose2 (spec_county_total pops c))).
    - intros c _. by apply choose2_nonneg, spec_county_total_nonneg.
    - apply county_total_in_counties. lia. }
  pose proof (preserved_pairs_cases_nonneg pops Hnn Hexact) as Hcases.
  rewrite decide_False in Hcases by lia. destruct Hcases as (q & Hq & Hv).
  exists q. split; [done|]. split; [done|]. split.
  - rewrite Hv.
    apply Qdiv_unit_interval; [apply preserved_pairs_bounds; done | lia].
  - intros ->. rewrite Hv. vm_compute. reflexivity.
Qed.

(** The mapping [{("A","1"): 60, ("A","2"): 40}] meets the hypotheses. *)
Lemma preserved_pairs_formula_witness :
  ∃ q, preserved_pairs pops_60_40 = Ok q ∧
       (q == (1770 + 780) / 4950)%Q ∧ (0 <= q <= 1)%Q.
Proof.
  destruct (preserved_pairs_formula pops_60_40) as (q & Hq & _ & Hr & Hv).
  - apply (bool_decide_unpack _). vm_compute. exact I.
  - apply (bool_decide_unpack _). vm_compute. exact I.
  - exists "A". apply Z.leb_le. vm_compute. reflexivity.
  - apply Z.leb_le. vm_compute. reflexivity.
  - exists q. split; [exact Hq|]. split; [|exact Hr].
    apply Hv. reflexivity.
Defined.

(** ** The largest intersection of a county *)

Lemma foldl_max_spec (l : list Z) (x : Z) :
  foldl Z.max x l ∈ x :: l ∧ ∀ y, y ∈ x :: l → y ≤ foldl Z.max x l.
Proof.
  revert x. induction l as [|z l IH]; intros x; simpl.
  - split; [set_solver|]. intros y Hy. apply list_elem_of_singleton in Hy. lia.
  - destruct (IH (Z.max x z)) as [Hin Hle]. split.
    + apply elem_of_cons in Hin as [Hin|Hin]; [|set_solver].
      rewrite Hin. destruct (Z.max_spec x z) as [[_ ->]|[_ ->]]; set_solver.
    + intros y Hy.
      assert (Z.max x z ≤ foldl Z.max (Z.max x z) l) by (apply Hle; set_solver).
      apply elem_of_cons in Hy as [->|Hy]; [lia|].
      apply elem_of_cons in Hy as [->|Hy]; [lia|].
      apply Hle. set_solver.
Qed.

Lemma py_max_spec (l : list Z) :
  l ≠ [] → ∃ m, py_max l = Ok m ∧ m ∈ l ∧ ∀ y, y ∈ l → y ≤ m.
Proof.
  destruct l as [|x l]; [done|]. intros _. exists (foldl Z.max x l).
  split; [done|]. apply foldl_max_spec.
Qed.

Lemma py_max_county (pops : gmap (string * string) Z) c :
  c ∈ counties_of pops →
  py_max (filter (in_county c) (items pops)).*2 = Ok (county_max pops c) ∧
  is_county_max pops c (county_max pops c).
Proof.
  intros Hc. unfold county_max.
  destruct (py_max_spec (filter (in_county c) (items pops)).*2) as (m & -> & Hin & Hle).
  { intros Hnil%fmap_nil_inv. by apply (county_items_nonempty pops c). }
  split; [done|]. split.
  - apply list_elem_of_fmap in Hin as [[[c' d] p] [-> [Hc' Hk]%elem_of_county_items]].
    simpl in *. subst c'. eauto.
  - intros d p Hk. apply Hle. apply list_elem_of_fmap. exists ((c, d), p).
    split; [done|]. by apply elem_of_county_items.
Qed.

(** What [largest_intersection] does on any mapping: the division of the sum
    of the county maxima by the grand total. *)
Lemma largest_intersection_run (pops : gmap (string * string) Z) :
  largest_intersection pops
  = py_truediv (spec_sum_counties pops (county_max pops)) (spec_grand_total pops).
Proof.
  unfold largest_intersection.
  rewrite (mapM_result_Ok _ (county_max pops))
    by (intros c Hc; by apply py_max_county).
  simpl. by rewrite sum_with_py_sum, spec_grand_total_py_sum, spec_sum_counties_sum.
Qed.

Lemma unsplit_county_items (pops : gmap (string * string) Z) c :
  unsplit pops → c ∈ counties_of pops →
  ∃ kv, filter (in_county c) (items pops) = [kv].
Proof.
  intros Hun Hc.
  pose proof (county_items_nonempty pops c Hc) as Hne.
  assert (Hlen : ¬ (1 < length (filter (in_county c) (items pops)))%nat).
  { rewrite county_items_split. intros (d1 & d2 & Hd & H1 & H2).
    by apply Hd, (Hun c). }
  destruct (filter (in_county c) (items pops)) as [|kv [|kv' l]]; [done | eauto |].
  simpl in Hlen. lia.
Qed.

Lemma unsplit_county_max (pops : gmap (string * string) Z) c :
  unsplit pops → c ∈ counties_of pops →
  county_max pops c = spec_county_total pops c.
Proof.
  intros Hun Hc. destruct (unsplit_county_items pops c Hun Hc) as [kv Hkv].
  unfold county_max. rewrite spec_county_total_sum, Hkv. simpl. lia.
Qed.

Lemma county_max_le_total (pops : gmap (string * string) Z) c :
  nonneg pops → c ∈ counties_of pops →
  0 ≤ county_max pops c ≤ spec_county_total pops c.
Proof.
  intros Hnn Hc. destruct (py_max_county pops c Hc) as [_ [[d Hd] _]].
  split; [exact (Hnn _ _ Hd)|].
  rewrite spec_county_total_sum.
  apply (sum_with_elem_le snd _ ((c, d), county_max pops c)).
  - intros kv Hkv. by eapply nonneg_county_items.
  - by apply elem_of_county_items.
Qed.

Lemma unsplit_sum_county_max (pops : gmap (string * string) Z) :
  unsplit pops → spec_sum_counties pops (county_max pops) = spec_grand_total pops.
Proof.
  intros Hun. rewrite spec_sum_counties_sum, spec_grand_total_by_county.
  apply sum_with_ext. intros c Hc. by apply unsplit_county_max.
Qed.

Lemma sum_county_max_bounds (pops : gmap (string * string) Z) :
  nonneg pops →
  0 ≤ spec_sum_counties pops (county_max pops) ≤ spec_grand_total pops.
Proof.
  intros Hnn. rewrite spec_sum_counties_sum, spec_grand_total_by_county. split.
  - apply sum_with_nonneg. intros c Hc. by apply county_max_le_total.
  - apply sum_with_le. intros c Hc. by apply county_max_le_total.
Qed.

(** C6: for every non-empty mapping of non-negative populations with
    positive grand total, [largest_intersection] returns the sum over the
    counties of the county's largest intersection population divided by the
    grand total; the result lies in [0,1] and is 1 when no county is split. *)
Theorem largest_intersection_formula (pops : gmap (string * string) Z) :
  pops ≠ ∅ →
  nonneg pops →
  0 < spec_grand_total pops →
  ∃ q, largest_intersection pops = Ok q ∧
       (∀ c, c ∈ spec_counties pops → is_county_max pops c (county_max pops c)) ∧
       (q == inject_Z (spec_sum_counties pops (county_max pops))
             / inject_Z (spec_grand_total pops))%Q ∧
       (0 <= q <= 1)%Q ∧
       (unsplit pops → (q == 1)%Q).
Proof.
  intros _ Hnn Htot. eexists. split.
  { rewrite largest_intersection_run.
    apply py_truediv_le; [by apply sum_county_max_bounds | done]. }
  split.
  { intros c Hc. apply py_max_county. by rewrite counties_of_spec, elem_of_elements. }
  split; [reflexivity|]. split.
  - apply Qdiv_unit_interval; [by apply sum_county_max_bounds | done].
  - intros Hun. rewrite unsplit_sum_county_max by done.
    apply Qmult_inv_r. change 0%Q with (inject_Z 0). rewrite inject_Z_injective. lia.
Qed.

Lemma items_pops_100_50 : items pops_100_50 = [(("A","1"), 100); (("B","1"), 50)].
Proof. vm_compute. reflexivity. Qed.

Lemma unsplit_pops_100_50 : unsplit pops_100_50.
Proof.
  intros c d1 d2 [p1 H1%elem_of_items] [p2 H2%elem_of_items].
  rewrite items_pops_100_50 in H1, H2.
  apply elem_of_cons in H1 as [H1|H1%list_elem_of_singleton];
    apply elem_of_cons in H2 as [H2|H2%list_elem_of_singleton]; congruence.
Qed.

(** On the unsplit mapping [{("A","1"): 100, ("B","1"): 50}] the value is
    (100+50)/150 = 1. *)
Lemma largest_intersection_formula_witness :
  ∃ q, largest_intersection pops_100_50 = Ok q ∧ (q == 1)%Q ∧ (0 <= q <= 1)%Q.
Proof.
  destruct (largest_intersection_formula pops_100_50) as (q & Hq & _ & _ & Hr & Hone).
  - apply (bool_decide_unpack _). vm_compute. exact I.
  - apply (bool_decide_unpack _). vm_compute. exact I.
  - apply Z.ltb_lt. vm_compute. reflexivity.
  - exists q. split; [exact Hq|]. split; [|exact Hr].
    apply Hone. exact unsplit_pops_100_50.
Defined.

(** ** NumPy arithmetic *)

Lemma Rsign_pos (x : R) : (0 < x)%R → Rsign x = Gt.
Proof. intros Hx. unfold Rsign. destruct (total_order_T x 0) as [[?|?]|?]; [lra | lra | done]. Qed.

Lemma Rsign_neg (x : R) : (x < 0)%R → Rsign x = Lt.
Proof. intros Hx. unfold Rsign. destruct (total_order_T x 0) as [[?|?]|?]; [done | lra | lra]. Qed.

Lemma Rsign_zero : Rsign 0 = Eq.
Proof. unfold Rsign. destruct (total_order_T 0 0) as [[?|?]|?]; [lra | done | lra]. Qed.

Lemma np_add_NaN_r (a : float64) : np_add a NaN = NaN.
Proof. by destruct a. Qed.

Lemma foldl_np_add_NaN (l : list float64) : foldl np_add NaN l = NaN.
Proof. induction l as [|x l IH]; [done|]. simpl. exact IH. Qed.

(** One NaN spoils a sum. *)
Lemma np_sum_NaN (l : list float64) : NaN ∈ l → np_sum l = NaN.
Proof.
  unfold np_sum. generalize (of_int 0). induction l as [|x l IH]; intros a Hin.
  - by apply not_elem_of_nil in Hin.
  - simpl. apply elem_of_cons in Hin as [<-|Hin].
    + rewrite np_add_NaN_r. apply foldl_np_add_NaN.
    + by apply IH.
Qed.

Lemma foldl_np_add_Fin {A} (f : A → R) (l : list A) (a : R) :
  foldl np_add (Fin a) ((λ x, Fin (f x)) <$> l) = Fin (a + Rsum_with f l).
Proof.
  revert a. induction l as [|x l IH]; intros a.
  - simpl. f_equal. lra.
  - rewrite fmap_cons. simpl foldl. rewrite IH. f_equal. simpl. lra.
Qed.

(** A sum of finite numbers is the finite sum. *)
Lemma np_sum_Fin {A} (f : A → R) (l : list A) :
  np_sum ((λ x, Fin (f x)) <$> l) = Fin (Rsum_with f l).
Proof. unfold np_sum, of_int. rewrite foldl_np_add_Fin. f_equal. lra. Qed.

Lemma Q2R_inject_Z (z : Z) : Q2R (inject_Z z) = IZR z.
Proof. unfold Q2R. simpl. lra. Qed.

Lemma Q2R_ratio (p P : Z) :
  P ≠ 0 → Q2R (inject_Z p / inject_Z P) = (IZR p / IZR P)%R.
Proof.
  intros HP. rewrite Q2R_div, !Q2R_inject_Z; [done|].
  change 0%Q with (inject_Z 0). by rewrite inject_Z_injective.
Qed.

(** A zero-valued intersection in a county of non-zero total: [0 / P] is
    [0.0], its logarithm is [-inf], and [0 * -inf] is NaN. *)
Lemma entropy_term_zero (P : Z) : P ≠ 0 → entropy_term P 0 = NaN.
Proof.
  intros HP. unfold entropy_term, np_log2.
  assert (Hq : (inject_Z 0 / inject_Z P == 0)%Q) by (unfold Qdiv; ring).
  apply Qeq_alt in Hq. rewrite Hq. unfold of_int. simpl. by rewrite Rsign_zero.
Qed.

(** A positive intersection in a county of positive total. *)
Lemma entropy_term_pos (P p : Z) :
  0 < p → 0 < P →
  entropy_term P p = Fin (IZR p * log2 (IZR p / IZR P)).
Proof.
  intros Hp HP. unfold entropy_term, np_log2.
  assert (Hq : (inject_Z p / inject_Z P > 0)%Q).
  { apply Qlt_shift_div_l.
    - change 0%Q with (inject_Z 0). by rewrite <- Zlt_Qlt.
    - rewrite Qmult_0_l. change 0%Q with (inject_Z 0). by rewrite <- Zlt_Qlt. }
  apply Qgt_alt in Hq. rewrite Hq. unfold of_int, log2. simpl.
  by rewrite Q2R_ratio by lia.
Qed.

(** ** The loop of [min_entropy] *)

(** A comprehension of which one element raises, all raising elements
    raising the same exception. *)
Lemma mapM_result_Raise {A B} (f : A → result B) (l : list A) (e : exn) (x : A) :
  x ∈ l → f x = Raise e →
  (∀ y, y ∈ l → (∃ z, f y = Ok z) ∨ f y = Raise e) →
  mapM f l = Raise e.
Proof.
  induction l as [|y l IH]; intros Hin Hx Hall; [by apply not_elem_of_nil in Hin|].
  simpl. destruct (Hall y) as [[z Hz]|Hy]; [set_solver | | by rewrite Hy].
  rewrite Hz. simpl. apply elem_of_cons in Hin as [->|Hin]; [congruence|].
  rewrite IH; [done | done | done |]. intros y' Hy'. apply Hall. set_solver.
Qed.

(** A county of total zero: the first quotient [pops[key] / county_size]
    raises. *)
Lemma county_entropy_zero (pops : gmap (string * string) Z) c :
  c ∈ counties_of pops → spec_county_total pops c = 0 →
  county_entropy pops c = Raise ZeroDivisionError.
Proof.
  intros Hc Hz. unfold county_entropy.
  rewrite spec_county_total_py_sum, Hz.
  pose proof (county_items_nonempty pops c Hc) as Hne.
  destruct (filter (in_county c) (items pops)) as [|kv l]; [done|]. reflexivity.
Qed.

Lemma in_float_range_county_items (pops : gmap (string * string) Z) c kv :
  in_float_range pops → kv ∈ filter (in_county c) (items pops) →
  Z.abs kv.2 < float_overflow_bound.
Proof.
  destruct kv as [k p]. intros Hr [_ Hk]%elem_of_county_items. exact (Hr k p Hk).
Qed.

(** A county of non-zero total whose populations are in the range of
    floats: no quotient and no conversion raises. *)
Lemma county_entropy_nonzero (pops : gmap (string * string) Z) c :
  in_float_range pops →
  spec_county_total pops c ≠ 0 →
  county_entropy pops c = Ok (county_term pops c).
Proof.
  intros Hr Hnz. unfold county_entropy, county_term.
  rewrite spec_county_total_py_sum.
  rewrite (mapM_result_Ok _ (λ kv, entropy_term (spec_county_total pops c) kv.2)).
  - simpl. by rewrite <- list_fmap_compose.
  - intros kv Hkv. pose proof (in_float_range_county_items pops c kv Hr Hkv) as Hp.
    rewrite py_truediv_ok; [|done|].
    + cbn [mbind result_bind]. by rewrite np_of_int_ok.
    + pose proof float_exact_lt_overflow. pose proof float_exact_bound_pos. nia.
Qed.

(** [min_entropy] when some county has total zero. *)
Lemma min_entropy_zero_county (pops : gmap (string * string) Z) c :
  in_float_range pops →
  c ∈ counties_of pops → spec_county_total pops c = 0 →
  min_entropy pops = Raise ZeroDivisionError.
Proof.
  intros Hr Hc Hz. unfold min_entropy.
  rewrite (mapM_result_Raise _ _ ZeroDivisionError c); [done | done | |].
  - by apply county_entropy_zero.
  - intros c' Hc'. destruct (decide (spec_county_total pops c' = 0)).
    + right. by apply county_entropy_zero.
    + left. eexists. by apply county_entropy_nonzero.
Qed.

(** [min_entropy] when no county has total zero and the populations and
    their sum are in the range of floats: NumPy arithmetic all the way, so
    nothing raises. *)
Lemma min_entropy_nonzero_counties (pops : gmap (string * string) Z) :
  pops ≠ ∅ →
  in_float_range pops →
  Z.abs (spec_grand_total pops) < float_overflow_bound →
  (∀ c, c ∈ counties_of pops → spec_county_total pops c ≠ 0) →
  min_entropy pops
  = Ok (np_div (of_int 1)
          (np_add (of_int 1)
             (np_div (np_mul (of_int (-1)) (np_sum (county_term pops <$> counties_of pops)))
                     (of_int (spec_grand_total pops))))).
Proof.
  intros Hne Hr Ht Hnz. unfold min_entropy.
  rewrite (mapM_result_Ok _ (county_term pops))
    by (intros c Hc; by apply county_entropy_nonzero, Hnz).
  cbn [mbind result_bind]. rewrite spec_grand_total_py_sum.
  destruct (county_term pops <$> counties_of pops) eqn:Hl.
  - apply fmap_nil_inv in Hl. destruct Hne.
    apply map_empty. intros [c d]. destruct (pops !! (c, d)) as [p|] eqn:Hk; [|done].
    assert (Hc : c ∈ counties_of pops) by (apply elem_of_counties_of; eauto).
    rewrite Hl in Hc. by apply not_elem_of_nil in Hc.
  - by rewrite np_of_int_ok.
Qed.

(** Populations between 0 and [float_exact_bound] in sum are in range. *)
Lemma nonneg_in_float_range (pops : gmap (string * string) Z) :
  nonneg pops → spec_grand_total pops ≤ float_exact_bound → in_float_range pops.
Proof.
  intros Hnn Ht k p Hk. simpl.
  assert (0 ≤ p) by exact (Hnn k p Hk).
  assert (p ≤ spec_grand_total pops).
  { rewrite spec_grand_total_sum. apply (sum_with_elem_le snd _ (k, p)).
    - intros [k' p'] Hk'%elem_of_items. exact (Hnn k' p' Hk').
    - by apply elem_of_items. }
  pose proof float_exact_lt_overflow. pose proof float_exact_bound_pos. lia.
Qed.

Lemma min_entropy_empty : min_entropy ∅ = Raise ZeroDivisionError.
Proof. reflexivity. Qed.

(** ** Degenerate inputs *)

Lemma spec_county_total_le_grand (pops : gmap (string * string) Z) c :
  nonneg pops → c ∈ counties_of pops →
  spec_county_total pops c ≤ spec_grand_total pops.
Proof.
  intros Hnn Hc. rewrite spec_grand_total_by_county.
  apply (sum_with_elem_le (spec_county_total pops)); [|done].
  intros c' _. by apply spec_county_total_nonneg.
Qed.

Lemma nonempty_has_county (pops : gmap (string * string) Z) :
  pops ≠ ∅ → ∃ c, c ∈ counties_of pops.
Proof.
  intros Hne. apply map_choose in Hne as ([c d] & p & Hk).
  exists c. apply elem_of_counties_of. eauto.
Qed.

Lemma items_pops_zero : items pops_zero = [(("A","1"), 0)].
Proof. vm_compute. reflexivity. Qed.

Lemma county_total_pops_zero c : spec_county_total pops_zero c ≤ 1.
Proof.
  rewrite spec_county_total_sum, items_pops_zero, filter_cons, filter_nil.
  destruct (decide (in_county c (("A","1"), 0))); simpl; lia.
Qed.

(** A population that is the whole of its county contributes
    [P * log2(1.0)], which is 0. *)
Lemma entropy_term_whole (P : Z) : P ≠ 0 → entropy_term P P = Fin 0.
Proof.
  intros HP. unfold entropy_term, np_log2.
  assert (Hne : ¬ (inject_Z P == 0)%Q)
    by (change 0%Q with (inject_Z 0); by rewrite inject_Z_injective).
  assert (Hq : (inject_Z P / inject_Z P > 0)%Q).
  { assert (Hone : (inject_Z P / inject_Z P == 1)%Q) by (by apply Qmult_inv_r).
    rewrite Hone. reflexivity. }
  apply Qgt_alt in Hq. rewrite Hq. unfold of_int. cbn [np_mul].
  rewrite Q2R_ratio by done. rewrite Rdiv_diag by (by apply not_0_IZR).
  rewrite ln_1. f_equal. unfold Rdiv. ring.
Qed.

Lemma min_entropy_pops_5_neg5 : min_entropy pops_5_neg5 = Ok NaN.
Proof.
  assert (Hcs : counties_of pops_5_neg5 = ["A"; "B"]) by (vm_compute; reflexivity).
  rewrite min_entropy_nonzero_counties.
  - rewrite Hcs. unfold county_term.
    assert (HA : filter (in_county "A") (items pops_5_neg5) = [(("A","1"), 5)])
      by (vm_compute; reflexivity).
    assert (HB : filter (in_county "B") (items pops_5_neg5) = [(("B","1"), -5)])
      by (vm_compute; reflexivity).
    assert (HtA : spec_county_total pops_5_neg5 "A" = 5) by (vm_compute; reflexivity).
    assert (HtB : spec_county_total pops_5_neg5 "B" = -5) by (vm_compute; reflexivity).
    assert (Ht : spec_grand_total pops_5_neg5 = 0) by (vm_compute; reflexivity).
    rewrite !fmap_cons, fmap_nil, HA, HB, HtA, HtB, Ht.
    rewrite !fmap_cons, !fmap_nil. cbn [snd].
    rewrite !entropy_term_whole by done.
    unfold np_sum, of_int. cbn [foldl np_add np_mul].
    replace (-1 * (0 + (0 + 0) + (0 + 0)))%R with 0%R by ring.
    cbn [np_div]. by rewrite Rsign_zero.
  - apply (bool_decide_unpack _). vm_compute. exact I.
  - apply (bool_decide_unpack _). vm_compute. exact I.
  - apply Z.ltb_lt. vm_compute. reflexivity.
  - rewrite Hcs. intros c Hc.
    apply elem_of_cons in Hc as [->|Hc%list_elem_of_singleton]; [|subst c];
      vm_compute; discriminate.
Qed.

(** C1, as stated, fails: the grand total of
    [{("A","1"): 5, ("B","1"): -5}] is zero, yet [min_entropy] does not
    raise: no county has total zero, the last division is NumPy's, and the
    function returns NaN. *)
Lemma zero_total_returns_nan :
  pops_5_neg5 ≠ ∅ ∧ spec_grand_total pops_5_neg5 = 0 ∧
  min_entropy pops_5_neg5 = Ok NaN.
Proof.
  split; [|split].
  - apply (bool_decide_unpack _). vm_compute. exact I.
  - vm_compute. reflexivity.
  - exact min_entropy_pops_5_neg5.
Qed.

(** C1, amended: on a mapping of non-negative populations whose relevant
    denominator is zero (the empty mapping; for [preserved_pairs] a mapping
    in which every county's total is at most 1; for [largest_intersection]
    and [min_entropy] a mapping of grand total zero) each of the three
    metrics raises [ZeroDivisionError]: none returns a number. *)
Theorem degenerate_inputs_raise (pops : gmap (string * string) Z) :
  nonneg pops →
  ((pops = ∅ ∨ ∀ c, spec_county_total pops c ≤ 1) →
   preserved_pairs pops = Raise ZeroDivisionError) ∧
  ((pops = ∅ ∨ spec_grand_total pops = 0) →
   largest_intersection pops = Raise ZeroDivisionError ∧
   min_entropy pops = Raise ZeroDivisionError).
Proof.
  intros Hnn. pose proof float_exact_bound_pos as Hb. split.
  - intros Hdeg.
    assert (Hsmall : ∀ c, spec_county_total pops c ≤ 1).
    { destruct Hdeg as [->|Hsmall]; [|done]. intros c. by vm_compute. }
    assert (Hden : spec_pairs_same_county pops = 0).
    { rewrite spec_pairs_same_county_sum. apply sum_with_zero. intros c _.
      apply choose2_small. split; [by apply spec_county_total_nonneg | done]. }
    assert (Hcases := preserved_pairs_cases_nonneg pops Hnn ltac:(lia)).
    by rewrite decide_True in Hcases.
  - intros Hdeg.
    assert (Hz : spec_grand_total pops = 0) by (by destruct Hdeg as [->|Hz]).
    split.
    + rewrite largest_intersection_run, Hz. apply py_truediv_zero.
    + destruct (decide (pops = ∅)) as [->|Hne]; [apply min_entropy_empty|].
      destruct (nonempty_has_county pops Hne) as [c Hc].
      apply (min_entropy_zero_county pops c); [|done|].
      * apply nonneg_in_float_range; [done | lia].
      * pose proof (spec_county_total_nonneg pops c Hnn).
        pose proof (spec_county_total_le_grand pops c Hnn Hc). lia.
Qed.

(** On [{("A","1"): 0}] all three metrics raise. *)
Lemma degenerate_inputs_raise_witness :
  preserved_pairs pops_zero = Raise ZeroDivisionError ∧
  largest_intersection pops_zero = Raise ZeroDivisionError ∧
  min_entropy pops_zero = Raise ZeroDivisionError.
Proof.
  destruct (degenerate_inputs_raise pops_zero) as [Hpp Hrest].
  - apply (bool_decide_unpack _). vm_compute. exact I.
  - split.
    + apply Hpp. right. exact county_total_pops_zero.
    + apply Hrest. right. vm_compute. reflexivity.
Defined.

(** ** Negative populations *)

(** C3, as stated, fails: [{("A","1"): -3, ("A","2"): 10}] has a negative
    population, yet [threshold] returns normally (at the default threshold
    and at a threshold low enough to keep the entry) and [preserved_pairs]
    computes the score 51/21 from it, which is above 1. *)
Lemma negative_population_not_rejected :
  pops_neg !! ("A","1") = Some (-3) ∧
  (∃ h', threshold 1%positive threshold_default {[ 1%positive := pops_neg ]}
         = Ok (1%positive, h')) ∧
  (∃ h', threshold 1%positive (-5) {[ 1%positive := pops_neg ]} = Ok (1%positive, h') ∧
         h' !! 1%positive = Some pops_neg) ∧
  ∃ q, preserved_pairs pops_neg = Ok q ∧ (q == 51 / 21)%Q ∧ (1 < q)%Q.
Proof.
  split; [reflexivity|]. split; [|split].
  - eexists. apply threshold_run. reflexivity.
  - eexists. split; [apply threshold_run; reflexivity|].
    rewrite lookup_insert_eq. by f_equal.
  - eexists. split; [vm_compute; reflexivity|]. split; reflexivity.
Qed.

(** C3, amended: the code has no check on the sign of a population.
    [threshold] raises no error at any threshold and leaves exactly the
    entries whose value is not below the threshold: an entry with a negative
    value is deleted without notice when the threshold is not negative (the
    default is 50), and kept without notice when the threshold is at or
    below its value.  [preserved_pairs] on a mapping as it stands makes no
    check either: when both pair counts are at most 2^53 and the count of
    same-county pairs is not zero, it returns their quotient, whatever the
    signs. *)
Theorem negative_populations_filtered_or_scored
    (h : gmap positive (gmap (string * string) Z)) (l : positive)
    (pops : gmap (string * string) Z) (t : Z) :
  h !! l = Some pops →
  (∃ h' kept,
     threshold l t h = Ok (l, h') ∧ h' !! l = Some kept ∧
     (∀ k p, kept !! k = Some p ↔ pops !! k = Some p ∧ t ≤ p) ∧
     (∀ k p, pops !! k = Some p → p < 0 →
             (0 ≤ t → kept !! k = None) ∧ (t ≤ p → kept !! k = Some p))) ∧
  (spec_pairs_same_district pops ≤ float_exact_bound →
   spec_pairs_same_county pops ≤ float_exact_bound →
   spec_pairs_same_county pops ≠ 0 →
   ∃ q, preserved_pairs pops = Ok q ∧
        (q == inject_Z (spec_pairs_same_district pops)
              / inject_Z (spec_pairs_same_county pops))%Q).
Proof.
  intros Hl. split.
  - exists (<[l := spec_filtered pops t]> h), (spec_filtered pops t).
    split; [by apply threshold_run|]. split; [apply lookup_insert_eq|]. split.
    + intros k p. apply lookup_spec_filtered.
    + intros k p Hk Hp. split.
      * intros Ht. apply map_lookup_filter_None. right.
        intros p' Hk'. simpl. simplify_eq. lia.
      * intros Ht. by apply lookup_spec_filtered.
  - intros Hn Hd Hden. pose proof (preserved_pairs_cases pops Hn Hd) as Hcases.
    by rewrite decide_False in Hcases.
Qed.

(** On [{("A","1"): -3, ("A","2"): 10}] at the default threshold the
    negative entry is gone after the call, and [preserved_pairs] on the
    mapping as it stands returns a score. *)
Lemma negative_populations_filtered_or_scored_witness :
  (∃ h' kept,
     threshold 1%positive 50 {[ 1%positive := pops_neg ]} = Ok (1%positive, h') ∧
     h' !! 1%positive = Some kept ∧ kept !! ("A","1") = None) ∧
  ∃ q, preserved_pairs pops_neg = Ok q ∧
       (q == inject_Z (spec_pairs_same_district pops_neg)
             / inject_Z (spec_pairs_same_county pops_neg))%Q.
Proof.
  destruct (negative_populations_filtered_or_scored
              {[ 1%positive := pops_neg ]} 1%positive pops_neg 50)
    as [(h' & kept & Hrun & Hk & _ & Hneg) Hs].
  - reflexivity.
  - split.
    + exists h', kept. split; [exact Hrun|]. split; [exact Hk|].
      apply (Hneg ("A","1") (-3)); [reflexivity | lia | lia].
    + apply Hs.
      * apply Z.leb_le. vm_compute. reflexivity.
      * apply Z.leb_le. vm_compute. reflexivity.
      * vm_compute. discriminate.
Defined.

(** ** The entropy of a mapping of positive populations *)

Lemma Rsum_with_nonpos {A} (f : A → R) (l : list A) :
  (∀ x, x ∈ l → (f x <= 0)%R) → (Rsum_with f l <= 0)%R.
Proof.
  induction l as [|x l IH]; intros Hf; simpl; [lra|].
  assert (f x <= 0)%R by (apply Hf; set_solver).
  assert (Rsum_with f l <= 0)%R by (apply IH; intros y Hy; apply Hf; set_solver).
  unfold Rsum_with in *. lra.
Qed.

Lemma Rsum_with_zero {A} (f : A → R) (l : list A) :
  (∀ x, x ∈ l → f x = 0%R) → Rsum_with f l = 0%R.
Proof.
  induction l as [|x l IH]; intros Hf; simpl; [done|].
  assert (f x = 0)%R by (apply Hf; set_solver).
  assert (Rsum_with f l = 0)%R by (apply IH; intros y Hy; apply Hf; set_solver).
  unfold Rsum_with in *. lra.
Qed.

Lemma sum_with_pos {A} (f : A → Z) (l : list A) :
  l ≠ [] → (∀ x, x ∈ l → 0 < f x) → 0 < sum_with f l.
Proof.
  destruct l as [|x l]; [done|]. intros _ Hf. rewrite sum_with_cons.
  assert (0 < f x) by (apply Hf; set_solver).
  assert (0 ≤ sum_with f l).
  { apply sum_with_nonneg. intros y Hy. apply Z.lt_le_incl, Hf. set_solver. }
  lia.
Qed.

Lemma ln_2_pos : (0 < ln 2)%R.
Proof. pose proof ln_lt_2. lra. Qed.

Lemma log2_1 : log2 1 = 0%R.
Proof. unfold log2. rewrite ln_1. unfold Rdiv. lra. Qed.

Lemma log2_nonpos (x : R) : (0 < x <= 1)%R → (log2 x <= 0)%R.
Proof.
  intros [Hx [Hlt| ->]]; [|rewrite log2_1; lra].
  pose proof (ln_increasing x 1 Hx Hlt) as Hln. rewrite ln_1 in Hln.
  pose proof ln_2_pos. unfold log2, Rdiv.
  assert (0 < / ln 2)%R by (by apply Rinv_0_lt_compat). nra.
Qed.

Lemma ratio_unit_interval (p P : Z) : 0 < p ≤ P → (0 < IZR p / IZR P <= 1)%R.
Proof.
  intros [Hp HpP].
  assert (0 < IZR p)%R by (by apply IZR_lt).
  assert (IZR p <= IZR P)%R by (by apply IZR_le).
  split.
  - apply Rdiv_lt_0_compat; lra.
  - apply (Rmult_le_reg_r (IZR P)); [lra|].
    unfold Rdiv. rewrite Rmult_assoc, Rinv_l; lra.
Qed.

Section positive_mapping.
Context (pops : gmap (string * string) Z).
Hypothesis Hpos : positive_pops pops.

Lemma positive_county_items c kv :
  kv ∈ filter (in_county c) (items pops) → 0 < kv.2.
Proof. destruct kv as [k p]. intros [_ Hk]%elem_of_county_items. exact (Hpos k p Hk). Qed.

Lemma positive_county_total c : c ∈ counties_of pops → 0 < spec_county_total pops c.
Proof.
  intros Hc. rewrite spec_county_total_sum.
  apply sum_with_pos; [by apply county_items_nonempty|].
  intros kv. apply positive_county_items.
Qed.

Lemma positive_grand_total : pops ≠ ∅ → 0 < spec_grand_total pops.
Proof.
  intros Hne. rewrite spec_grand_total_by_county. apply sum_with_pos.
  - destruct (nonempty_has_county pops Hne) as [c Hc]. intros Hnil.
    rewrite Hnil in Hc. by apply not_elem_of_nil in Hc.
  - intros c. apply positive_county_total.
Qed.

Lemma positive_item_le_total c kv :
  kv ∈ filter (in_county c) (items pops) → 0 < kv.2 ≤ spec_county_total pops c.
Proof.
  intros Hkv. split; [by eapply positive_county_items|].
  rewrite spec_county_total_sum. apply (sum_with_elem_le snd); [|done].
  intros kv' Hkv'. by apply Z.lt_le_incl, (positive_county_items c).
Qed.

Lemma spec_county_term_sum c :
  spec_county_term pops c
  = Rsum_with (λ kv, IZR kv.2 * log2 (IZR kv.2 / IZR (spec_county_total pops c)))%R
              (filter (in_county c) (items pops)).
Proof.
  unfold spec_county_term, items. rewrite map_fold_foldr.
  generalize (spec_county_total pops c). intros P.
  induction (map_to_list pops) as [|[k p] l IH]; [done|].
  rewrite filter_cons. unfold in_county at 1. simpl.
  destruct (decide (k.1 = c)); simpl; by rewrite IH.
Qed.

(** The inner sum the code computes is finite, and is the county's term
    of the specification. *)
Lemma county_term_positive c :
  c ∈ counties_of pops → county_term pops c = Fin (spec_county_term pops c).
Proof.
  intros Hc. unfold county_term.
  rewrite <- list_fmap_compose, spec_county_term_sum, <- np_sum_Fin.
  f_equal. apply Forall_fmap_ext_1, Forall_forall. intros kv Hkv. simpl.
  pose proof (positive_item_le_total c kv Hkv).
  apply entropy_term_pos; lia.
Qed.

Lemma spec_county_term_nonpos c : (spec_county_term pops c <= 0)%R.
Proof.
  rewrite spec_county_term_sum. apply Rsum_with_nonpos. intros kv Hkv.
  pose proof (positive_item_le_total c kv Hkv) as Hle.
  pose proof (log2_nonpos _ (ratio_unit_interval _ _ Hle)).
  assert (0 < IZR kv.2)%R by (apply IZR_lt; lia). nra.
Qed.

Lemma spec_cond_entropy_sum :
  spec_cond_entropy pops
  = (- Rsum_with (spec_county_term pops) (counties_of pops)
     / IZR (spec_grand_total pops))%R.
Proof. by rewrite counties_of_spec. Qed.

Lemma spec_cond_entropy_nonneg : pops ≠ ∅ → (0 <= spec_cond_entropy pops)%R.
Proof.
  intros Hne. rewrite spec_cond_entropy_sum.
  assert (0 < IZR (spec_grand_total pops))%R by (apply IZR_lt, positive_grand_total; done).
  assert (Rsum_with (spec_county_term pops) (counties_of pops) <= 0)%R
    by (apply Rsum_with_nonpos; intros c _; apply spec_county_term_nonpos).
  assert (0 < / IZR (spec_grand_total pops))%R by (by apply Rinv_0_lt_compat).
  unfold Rdiv. nra.
Qed.

(** What [min_entropy] does on a non-empty mapping of positive
    populations. *)
Lemma min_entropy_positive_run :
  pops ≠ ∅ →
  spec_grand_total pops ≤ float_exact_bound →
  min_entropy pops = Ok (Fin (1 / (1 + spec_cond_entropy pops))).
Proof.
  intros Hne Hexact.
  pose proof (spec_cond_entropy_nonneg Hne) as HH.
  pose proof (positive_grand_total Hne) as Htot.
  rewrite spec_cond_entropy_sum in *.
  rewrite min_entropy_nonzero_counties; [|done| | |].
  2:{ apply nonneg_in_float_range; [|done].
      intros k p Hk. apply Z.lt_le_incl. exact (Hpos k p Hk). }
  2:{ pose proof float_exact_lt_overflow. pose proof float_exact_bound_pos. lia. }
  2:{ intros c Hc. pose proof (positive_county_total c Hc). lia. }
  assert (Hterms : county_term pops <$> counties_of pops
                   = (λ c, Fin (spec_county_term pops c)) <$> counties_of pops).
  { apply Forall_fmap_ext_1, Forall_forall. intros c Hc. by apply county_term_positive. }
  rewrite Hterms, np_sum_Fin. unfold of_int. cbn [np_mul np_div].
  assert (HT : (0 < IZR (spec_grand_total pops))%R)
    by (apply IZR_lt, positive_grand_total; done).
  rewrite (Rsign_pos _ HT). cbn [np_add].
  set (S := Rsum_with (spec_county_term pops) (counties_of pops)) in *.
  assert (HS : (-1 * S / IZR (spec_grand_total pops)
                = - S / IZR (spec_grand_total pops))%R) by (unfold Rdiv; ring).
  rewrite HS. rewrite Rsign_pos by lra. done.
Qed.

Lemma unsplit_cond_entropy : unsplit pops → spec_cond_entropy pops = 0%R.
Proof.
  intros Hun. rewrite spec_cond_entropy_sum.
  rewrite Rsum_with_zero; [unfold Rdiv; ring|].
  intros c Hc. rewrite spec_county_term_sum, spec_county_total_sum.
  destruct (unsplit_county_items pops c Hun Hc) as [kv Hkv].
  pose proof (positive_county_items c kv) as Hp. rewrite Hkv in *.
  assert (0 < kv.2) by (apply Hp; set_solver).
  simpl. rewrite Z.add_0_r, Rdiv_diag, log2_1; [lra|].
  apply not_0_IZR. lia.
Qed.
End positive_mapping.

(** C7, as stated, fails: [{("A","1"): 10**400}] is non-empty and its
    population is positive, yet [min_entropy] raises [OverflowError]: the
    population is too large to be converted to a float for the product
    with the logarithm. *)
Lemma min_entropy_overflows :
  pops_1e400 ≠ ∅ ∧ positive_pops pops_1e400 ∧
  min_entropy pops_1e400 = Raise OverflowError.
Proof.
  split; [|split].
  - apply (bool_decide_unpack _). vm_compute. exact I.
  - apply (bool_decide_unpack _). vm_compute. exact I.
  - reflexivity.
Qed.

(** C7, amended: for every non-empty mapping of strictly positive
    populations whose grand total is at most 2^53 (so that every population
    and every total is a float exactly), [min_entropy] returns 1/(1 + H),
    where H is the base-2 conditional entropy of the district partition
    given the county partition and H is not negative; so the result lies in
    (0,1], and it is 1 when no county is split, H being 0 then. *)
Theorem min_entropy_formula (pops : gmap (string * string) Z) :
  pops ≠ ∅ →
  positive_pops pops →
  spec_grand_total pops ≤ float_exact_bound →
  (0 <= spec_cond_entropy pops)%R ∧
  min_entropy pops = Ok (Fin (1 / (1 + spec_cond_entropy pops))) ∧
  (0 < 1 / (1 + spec_cond_entropy pops) <= 1)%R ∧
  (unsplit pops → spec_cond_entropy pops = 0%R ∧ min_entropy pops = Ok (Fin 1)).
Proof.
  intros Hne Hpos Hexact.
  pose proof (spec_cond_entropy_nonneg pops Hpos Hne) as HH.
  pose proof (min_entropy_positive_run pops Hpos Hne Hexact) as Hrun.
  split; [done|]. split; [done|]. split.
  - split.
    + apply Rdiv_lt_0_compat; lra.
    + apply (Rmult_le_reg_r (1 + spec_cond_entropy pops)); [lra|].
      unfold Rdiv. rewrite Rmult_assoc, Rinv_l; lra.
  - intros Hun. pose proof (unsplit_cond_entropy pops Hpos Hun) as Hz.
    split; [done|]. rewrite Hrun, Hz. do 2 f_equal. lra.
Qed.

(** On the unsplit mapping [{("A","1"): 100, ("B","1"): 50}] the entropy is
    0 and the score is 1. *)
Lemma min_entropy_formula_witness :
  spec_cond_entropy pops_100_50 = 0%R ∧ min_entropy pops_100_50 = Ok (Fin 1).
Proof.
  destruct (min_entropy_formula pops_100_50) as (_ & _ & _ & Hone).
  - apply (bool_decide_unpack _). vm_compute. exact I.
  - apply (bool_decide_unpack _). vm_compute. exact I.
  - apply Z.leb_le. vm_compute. reflexivity.
  - apply Hone. exact unsplit_pops_100_50.
Defined.

(** ** A zero-valued intersection in [min_entropy] *)

(** With a zero-valued entry, no county of total zero and populations in
    the range of floats, the county of the entry contributes NaN, and NaN is
    what comes out. *)
Lemma zero_entry_gives_NaN (pops : gmap (string * string) Z) k :
  pops !! k = Some 0 →
  in_float_range pops →
  Z.abs (spec_grand_total pops) < float_overflow_bound →
  (∀ c, c ∈ counties_of pops → spec_county_total pops c ≠ 0) →
  min_entropy pops = Ok NaN.
Proof.
  intros Hk Hr Ht Hnz. destruct k as [c d].
  assert (Hc : c ∈ counties_of pops) by (apply elem_of_counties_of; eauto).
  rewrite min_entropy_nonzero_counties; [|by intros -> | done | done | done].
  rewrite (np_sum_NaN (county_term pops <$> counties_of pops)); [done|].
  apply list_elem_of_fmap. exists c. split; [|done]. symmetry.
  unfold county_term. apply np_sum_NaN.
  apply list_elem_of_fmap. exists 0. split; [symmetry; by apply entropy_term_zero, Hnz|].
  apply list_elem_of_fmap. exists ((c, d), 0). split; [done|].
  by apply elem_of_county_items.
Qed.

Lemma counties_of_pops_60_0 : counties_of pops_60_0 = ["A"].
Proof. vm_compute. reflexivity. Qed.

Lemma county_totals_pops_60_0 c :
  c ∈ counties_of pops_60_0 → spec_county_total pops_60_0 c ≠ 0.
Proof.
  rewrite counties_of_pops_60_0. intros ->%list_elem_of_singleton.
  vm_compute. discriminate.
Qed.

(** C2: the claim is what the docstring promises (a score in (0,1)) and the
    code does not deliver it.  On [{("A","1"): 60, ("A","2"): 0}]
    [min_entropy] returns NaN, whereas the mapping without the zero entry
    scores 1; on [{("A","1"): 0, ("B","1"): 5}] it raises
    [ZeroDivisionError]: a zero-valued intersection is neither survived nor
    counted as a contribution of 0. *)
Lemma zero_entry_not_ignored :
  (pops_60_0 !! ("A","2") = Some 0 ∧
   min_entropy pops_60_0 = Ok NaN ∧
   min_entropy (delete ("A","2") pops_60_0) = Ok (Fin 1) ∧
   min_entropy pops_60_0 ≠ min_entropy (delete ("A","2") pops_60_0)) ∧
  (pops_0_5 !! ("A","1") = Some 0 ∧
   min_entropy pops_0_5 = Raise ZeroDivisionError).
Proof.
  assert (Hnan : min_entropy pops_60_0 = Ok NaN).
  { apply (zero_entry_gives_NaN _ ("A","2")); [reflexivity | | |].
    - apply (bool_decide_unpack _). vm_compute. exact I.
    - apply Z.ltb_lt. vm_compute. reflexivity.
    - exact county_totals_pops_60_0. }
  assert (Hdel : delete ("A","2") pops_60_0 = pops_60) by (vm_compute; reflexivity).
  assert (Hone : min_entropy pops_60 = Ok (Fin 1)).
  { assert (Hpos : positive_pops pops_60)
      by (apply (bool_decide_unpack _); vm_compute; exact I).
    assert (Hne : pops_60 ≠ ∅) by (apply (bool_decide_unpack _); vm_compute; exact I).
    assert (Hex : spec_grand_total pops_60 ≤ float_exact_bound)
      by (apply Z.leb_le; vm_compute; reflexivity).
    assert (Hun : unsplit pops_60).
    { intros c d1 d2 [p1 H1%elem_of_items] [p2 H2%elem_of_items].
      assert (Hitems : items pops_60 = [(("A","1"), 60)]) by (vm_compute; reflexivity).
      rewrite Hitems in H1, H2.
      apply list_elem_of_singleton in H1, H2. congruence. }
    rewrite (min_entropy_positive_run pops_60 Hpos Hne Hex).
    rewrite (unsplit_cond_entropy pops_60 Hpos Hun). do 2 f_equal. lra. }
  split.
  - split; [reflexivity|]. split; [exact Hnan|]. rewrite Hdel.
    split; [exact Hone|]. rewrite Hnan, Hone. discriminate.
  - split; [reflexivity|].
    apply (min_entropy_zero_county _ "A"); [| |vm_compute; reflexivity].
    + apply (bool_decide_unpack _). vm_compute. exact I.
    + apply elem_of_counties_of. exists "1". by eexists.
Qed.

(** ** The scenarios of the specification *)

Example scenario_filter :
  threshold 1%positive threshold_default {[ 1%positive := pops_100_0_50 ]}
  = Ok (1%positive, {[ 1%positive := pops_100_50 ]}).
Proof.
  rewrite (threshold_run _ _ _ pops_100_0_50) by reflexivity.
  by do 2 f_equal.
Qed.

Example scenario_filter_counts :
  county_intersections pops_100_50 = 2%nat ∧ counties_split pops_100_50 = 0 ∧
  largest_intersection pops_100_50 = Ok (150 # 150)%Q.
Proof. repeat split; vm_compute; reflexivity. Qed.

Example scenario_unfiltered_counts :
  county_intersections pops_100_0_50 = 3%nat ∧ counties_split pops_100_0_50 = 1.
Proof. repeat split; vm_compute; reflexivity. Qed.

Example scenario_60_40 :
  counties_split pops_60_40 = 1 ∧
  largest_intersection pops_60_40 = Ok (60 # 100)%Q ∧
  preserved_pairs pops_60_40 = Ok (20400 # 39600)%Q.
Proof. repeat split; vm_compute; reflexivity. Qed.

(** * Further properties of the module *)

(** ** The filter composed with itself *)

Lemma spec_filtered_compose (d : gmap (string * string) Z) (t1 t2 : Z) :
  spec_filtered (spec_filtered d t1) t2 = spec_filtered d (Z.max t1 t2).
Proof.
  apply map_eq; intros k. apply option_eq; intros p.
  rewrite !lookup_spec_filtered. intuition lia.
Qed.

(** X1: two calls of [threshold] on the same dictionary, with thresholds
    [t1] and then [t2], leave what one call with the larger threshold
    leaves; in particular a second call with the same threshold changes
    nothing. *)
Theorem threshold_twice
    (h : gmap positive (gmap (string * string) Z)) (l : positive)
    (pops : gmap (string * string) Z) (t1 t2 : Z) :
  h !! l = Some pops →
  ∃ h1 h2,
    threshold l t1 h = Ok (l, h1) ∧
    threshold l t2 h1 = Ok (l, h2) ∧
    threshold l (Z.max t1 t2) h = Ok (l, h2) ∧
    threshold l t1 h1 = Ok (l, h1).
Proof.
  intros Hl.
  exists (<[l := spec_filtered pops t1]> h), (<[l := spec_filtered pops (Z.max t1 t2)]> h).
  split; [by apply threshold_run|]. split; [|split].
  - rewrite (threshold_run _ _ _ (spec_filtered pops t1)) by apply lookup_insert_eq.
    by rewrite insert_insert_eq, spec_filtered_compose.
  - by apply threshold_run.
  - rewrite (threshold_run _ _ _ (spec_filtered pops t1)) by apply lookup_insert_eq.
    by rewrite insert_insert_eq, spec_filtered_compose, Z.max_id.
Qed.

Lemma threshold_twice_witness :
  ∃ h1 h2,
    threshold 1%positive 50 {[ 1%positive := pops_100_0_50 ]} = Ok (1%positive, h1) ∧
    threshold 1%positive 60 h1 = Ok (1%positive, h2) ∧
    threshold 1%positive (Z.max 50 60) {[ 1%positive := pops_100_0_50 ]}
    = Ok (1%positive, h2) ∧
    threshold 1%positive 50 h1 = Ok (1%positive, h1).
Proof. apply (threshold_twice _ _ pops_100_0_50). reflexivity. Defined.

(** X2: [threshold] leaves the heap as it was exactly when no value of the
    dictionary is below the threshold. *)
Theorem threshold_unchanged_iff
    (h : gmap positive (gmap (string * string) Z)) (l : positive)
    (pops : gmap (string * string) Z) (t : Z) :
  h !! l = Some pops →
  (threshold l t h = Ok (l, h) ↔ ∀ k p, pops !! k = Some p → t ≤ p).
Proof.
  intros Hl. rewrite (threshold_run _ _ _ _ Hl). split.
  - intros Heq k p Hk. assert (Hh : <[l := spec_filtered pops t]> h = h) by congruence.
    apply (f_equal (λ m, m !! l)) in Hh. rewrite lookup_insert_eq, Hl in Hh.
    assert (Hf : spec_filtered pops t = pops) by congruence.
    rewrite <- Hf in Hk. by apply lookup_spec_filtered in Hk as [_ ?].
  - intros Hall. rewrite spec_filtered_id by done. by rewrite insert_id.
Qed.

Lemma threshold_unchanged_iff_witness :
  threshold 1%positive 50 {[ 1%positive := pops_100_50 ]}
  = Ok (1%positive, {[ 1%positive := pops_100_50 ]}).
Proof.
  apply (threshold_unchanged_iff _ _ pops_100_50); [reflexivity|].
  change (map_Forall (λ _ p, 50 ≤ p) pops_100_50).
  apply (bool_decide_unpack _). vm_compute. exact I.
Defined.

(** X3: when every value of the dictionary is below the threshold, the call
    empties the dictionary, and on what is left each of the three ratio
    metrics raises [ZeroDivisionError]. *)
Theorem threshold_all_below
    (h : gmap positive (gmap (string * string) Z)) (l : positive)
    (pops : gmap (string * string) Z) (t : Z) :
  h !! l = Some pops →
  (∀ k p, pops !! k = Some p → p < t) →
  ∃ h', threshold l t h = Ok (l, h') ∧
        h' !! l = Some ∅ ∧
        preserved_pairs (h' !!! l) = Raise ZeroDivisionError ∧
        largest_intersection (h' !!! l) = Raise ZeroDivisionError ∧
        min_entropy (h' !!! l) = Raise ZeroDivisionError.
Proof.
  intros Hl Hall.
  assert (He : spec_filtered pops t = ∅).
  { apply map_empty. intros k. apply map_lookup_filter_None. right.
    intros p Hk. simpl. specialize (Hall k p Hk). lia. }
  exists (<[l := ∅]> h). rewrite <- He at 1.
  split; [by apply threshold_run|]. rewrite lookup_total_insert_eq.
  split; [apply lookup_insert_eq|]. by repeat split.
Qed.

Lemma threshold_all_below_witness :
  ∃ h', threshold 1%positive 200 {[ 1%positive := pops_100_0_50 ]} = Ok (1%positive, h') ∧
        h' !! 1%positive = Some ∅ ∧
        preserved_pairs (h' !!! 1%positive) = Raise ZeroDivisionError ∧
        largest_intersection (h' !!! 1%positive) = Raise ZeroDivisionError ∧
        min_entropy (h' !!! 1%positive) = Raise ZeroDivisionError.
Proof.
  apply (threshold_all_below _ _ pops_100_0_50); [reflexivity|].
  change (map_Forall (λ _ p, p < 200) pops_100_0_50).
  apply (bool_decide_unpack _). vm_compute. exact I.
Defined.

(** ** The two counts *)

Lemma split_counties_set (pops : gmap (string * string) Z) :
  ∃ S : gset string,
    (∀ c, c ∈ S ↔ is_split pops c) ∧ counties_split pops = Z.of_nat (size S).
Proof.
  set (P := λ c : string, (1 < length (filter (in_county c) (items pops)))%nat).
  exists (list_to_set (filter P (counties_of pops))). split.
  - intros c. rewrite elem_of_list_to_set, list_elem_of_filter. unfold P.
    rewrite county_items_split, elem_of_counties_of. split; [tauto|].
    intros Hs. split; [done|]. destruct Hs as (d1 & _ & _ & H1 & _). eauto.
  - unfold counties_split. fold P. rewrite py_sum_ones. f_equal.
    symmetry. apply size_list_to_set, NoDup_filter, NoDup_counties_of.
Qed.

Lemma is_split_mono (kept pops : gmap (string * string) Z) c :
  kept ⊆ pops → is_split kept c → is_split pops c.
Proof.
  intros Hsub (d1 & d2 & Hne & [p1 H1] & [p2 H2]). exists d1, d2.
  split; [done|]. split; eexists; eapply lookup_weaken; eauto.
Qed.

Lemma counties_split_mono (kept pops : gmap (string * string) Z) :
  kept ⊆ pops → counties_split kept ≤ counties_split pops.
Proof.
  intros Hsub.
  destruct (split_counties_set kept) as (S1 & HS1 & ->).
  destruct (split_counties_set pops) as (S2 & HS2 & ->).
  apply inj_le, subseteq_size. intros c Hc.
  apply HS2, (is_split_mono kept); [done|]. by apply HS1.
Qed.

(** X4: filtering never raises either count: after [threshold] the
    dictionary has at most as many intersections and at most as many split
    counties as before. *)
Theorem threshold_shrinks_counts
    (h : gmap positive (gmap (string * string) Z)) (l : positive)
    (pops : gmap (string * string) Z) (t : Z) :
  h !! l = Some pops →
  ∃ h', threshold l t h = Ok (l, h') ∧
        (county_intersections (h' !!! l) ≤ county_intersections pops)%nat ∧
        counties_split (h' !!! l) ≤ counties_split pops.
Proof.
  intros Hl. exists (<[l := spec_filtered pops t]> h).
  split; [by apply threshold_run|]. rewrite lookup_total_insert_eq. split.
  - apply map_size_filter.
  - apply counties_split_mono, map_filter_subseteq.
Qed.

Lemma threshold_shrinks_counts_witness :
  ∃ h', threshold 1%positive 50 {[ 1%positive := pops_100_0_50 ]} = Ok (1%positive, h') ∧
        (county_intersections (h' !!! 1%positive) ≤ county_intersections pops_100_0_50)%nat ∧
        counties_split (h' !!! 1%positive) ≤ counties_split pops_100_0_50.
Proof. apply threshold_shrinks_counts. reflexivity. Defined.

Lemma sum_with_const_one {A} (l : list A) :
  sum_with (λ _, 1) l = Z.of_nat (length l).
Proof. induction l as [|x l IH]; [done|]. rewrite sum_with_cons, IH. simpl length. lia. Qed.

Lemma sum_with_filter_indicator {A} (P : A → Prop) `{∀ x, Decision (P x)} (l : list A) :
  py_sum ((λ _, 1) <$> filter P l) = sum_with (λ x, if decide (P x) then 1 else 0) l.
Proof.
  rewrite sum_with_py_sum. induction l as [|x l IH]; [done|].
  rewrite filter_cons, sum_with_cons. destruct (decide (P x)).
  - by rewrite sum_with_cons, IH.
  - by rewrite IH.
Qed.

Lemma sum_with_zero_iff {A} (f : A → Z) (l : list A) :
  (∀ x, x ∈ l → 0 ≤ f x) →
  sum_with f l = 0 ↔ ∀ x, x ∈ l → f x = 0.
Proof.
  intros Hf. split; [|apply sum_with_zero].
  induction l as [|y l IH]; intros Hs x Hx; [by apply not_elem_of_nil in Hx|].
  rewrite sum_with_cons in Hs.
  assert (0 ≤ f y) by (apply Hf; set_solver).
  assert (0 ≤ sum_with f l) by (apply sum_with_nonneg; intros z Hz; apply Hf; set_solver).
  apply elem_of_cons in Hx as [->|Hx]; [lia|].
  apply IH; [intros z Hz; apply Hf; set_solver | lia | done].
Qed.

Lemma counties_split_sum (pops : gmap (string * string) Z) :
  counties_split pops
  = sum_with (λ c, if decide (1 < length (filter (in_county c) (items pops)))%nat
                   then 1 else 0) (counties_of pops).
Proof. unfold counties_split. by rewrite sum_with_filter_indicator. Qed.

Lemma county_intersections_sum (pops : gmap (string * string) Z) :
  Z.of_nat (county_intersections pops)
  = sum_with (λ c, Z.of_nat (length (filter (in_county c) (items pops))))
             (counties_of pops).
Proof.
  unfold county_intersections. rewrite <- length_map_to_list.
  rewrite <- sum_with_const_one.
  rewrite (sum_with_by_county _ _ (counties_of pops));
    [| apply NoDup_counties_of | apply items_county_in_counties].
  apply sum_with_ext. intros c _. apply sum_with_const_one.
Qed.

Lemma number_of_counties_sum (pops : gmap (string * string) Z) :
  Z.of_nat (size (spec_counties pops)) = sum_with (λ _, 1) (counties_of pops).
Proof. by rewrite sum_with_const_one, counties_of_spec. Qed.

Lemma county_items_length_pos (pops : gmap (string * string) Z) c :
  c ∈ counties_of pops → (1 ≤ length (filter (in_county c) (items pops)))%nat.
Proof.
  intros Hc. pose proof (county_items_nonempty pops c Hc) as Hne.
  destruct (filter (in_county c) (items pops)); [done|]. simpl length. lia.
Qed.

Lemma unsplit_iff_length (pops : gmap (string * string) Z) :
  unsplit pops
  ↔ ∀ c, c ∈ counties_of pops → length (filter (in_county c) (items pops)) = 1%nat.
Proof.
  split.
  - intros Hun c Hc. destruct (unsplit_county_items pops c Hun Hc) as [kv Hkv].
    by rewrite Hkv.
  - intros Hlen c d1 d2 H1 H2. destruct (decide (d1 = d2)) as [|Hne]; [done|].
    assert (Hc : c ∈ counties_of pops) by (apply elem_of_counties_of; eauto).
    assert (Hs : is_split pops c) by (exists d1, d2; eauto).
    apply county_items_split in Hs. specialize (Hlen c Hc). lia.
Qed.

(** X5: the split count is between 0 and the number of counties, and the
    number of intersections is at least the number of counties plus the
    number of split counties (every county has an intersection, a split
    county at least two). *)
Theorem counts_bounds (pops : gmap (string * string) Z) :
  0 ≤ counties_split pops ≤ Z.of_nat (size (spec_counties pops)) ∧
  Z.of_nat (size (spec_counties pops)) + counties_split pops
  ≤ Z.of_nat (county_intersections pops).
Proof.
  rewrite counties_split_sum, county_intersections_sum, number_of_counties_sum.
  split; [split|].
  - apply sum_with_nonneg. intros c _. case_decide; lia.
  - apply sum_with_le. intros c _. case_decide; lia.
  - rewrite <- sum_with_plus. apply sum_with_le. intros c Hc.
    pose proof (county_items_length_pos pops c Hc). case_decide; lia.
Qed.

(** X6: no county is split exactly when [counties_split] is 0, and exactly
    when [county_intersections] is the number of counties. *)
Theorem unsplit_iff_counts (pops : gmap (string * string) Z) :
  (unsplit pops ↔ counties_split pops = 0) ∧
  (unsplit pops ↔ county_intersections pops = size (spec_counties pops)).
Proof.
  split.
  - rewrite counties_split_sum, unsplit_iff_length.
    rewrite sum_with_zero_iff by (intros c _; case_decide; lia).
    split; intros Hall c Hc; specialize (Hall c Hc);
      pose proof (county_items_length_pos pops c Hc); case_decide; lia.
  - rewrite unsplit_iff_length.
    assert (Hdiff : Z.of_nat (county_intersections pops)
                    - Z.of_nat (size (spec_counties pops))
                    = sum_with (λ c, Z.of_nat (length (filter (in_county c) (items pops))) - 1)
                               (counties_of pops)).
    { rewrite county_intersections_sum, number_of_counties_sum.
      assert (Hp := sum_with_plus
                      (λ c, Z.of_nat (length (filter (in_county c) (items pops))) - 1)
                      (λ _, 1) (counties_of pops)).
      cbv beta in Hp.
      assert (Hext : sum_with (λ c, Z.of_nat (length (filter (in_county c) (items pops))))
                              (counties_of pops)
                     = sum_with (λ c, Z.of_nat (length (filter (in_county c) (items pops)))
                                      - 1 + 1) (counties_of pops))
        by (apply sum_with_ext; intros c _; lia).
      lia. }
    assert (Hnn : ∀ c, c ∈ counties_of pops →
                       0 ≤ Z.of_nat (length (filter (in_county c) (items pops))) - 1).
    { intros c Hc. pose proof (county_items_length_pos pops c Hc). lia. }
    pose proof (sum_with_zero_iff _ _ Hnn) as Hz. rewrite <- Hdiff in Hz.
    split.
    + intros Hall. apply Nat2Z.inj. apply Z.sub_move_0_r, Hz.
      intros c Hc. rewrite (Hall c Hc). lia.
    + intros Heq c Hc. assert (Hc' := proj1 Hz ltac:(lia) c Hc). lia.
Qed.

(** X7: the two counts look at the keys only: two mappings with the same
    keys have the same split count and the same number of intersections,
    whatever the populations. *)
Theorem counts_depend_on_keys_only (pops1 pops2 : gmap (string * string) Z) :
  dom pops1 = dom pops2 →
  counties_split pops1 = counties_split pops2 ∧
  county_intersections pops1 = county_intersections pops2.
Proof.
  intros Hdom. split.
  - destruct (split_counties_set pops1) as (S1 & HS1 & ->).
    destruct (split_counties_set pops2) as (S2 & HS2 & ->).
    do 2 f_equal. apply set_eq. intros c. rewrite HS1, HS2. unfold is_split.
    setoid_rewrite <- elem_of_dom. by rewrite Hdom.
  - unfold county_intersections. by rewrite <- !size_dom, Hdom.
Qed.

Lemma counts_depend_on_keys_only_witness :
  counties_split pops_60_40 = counties_split pops_60_0 ∧
  county_intersections pops_60_40 = county_intersections pops_60_0.
Proof.
  apply counts_depend_on_keys_only. vm_compute. reflexivity.
Defined.

(** ** When the ratio metrics raise *)

Lemma pairs_same_county_zero_iff (pops : gmap (string * string) Z) :
  nonneg pops →
  spec_pairs_same_county pops = 0 ↔ ∀ c, spec_county_total pops c ≤ 1.
Proof.
  intros Hnn. rewrite spec_pairs_same_county_sum.
  rewrite sum_with_zero_iff by (intros c _; apply choose2_nonneg_all). split.
  - intros Hall c. destruct (decide (spec_county_total pops c = 0)) as [->|Hne]; [lia|].
    specialize (Hall c (county_total_in_counties pops c Hne)). simpl in Hall.
    destruct (decide (2 ≤ spec_county_total pops c)) as [Hbig|?]; [|lia].
    pose proof (choose2_pos _ Hbig). lia.
  - intros Hall c _. apply choose2_small.
    split; [by apply spec_county_total_nonneg | apply Hall].
Qed.

(** X8: on non-negative populations whose count of same-county pairs is at
    most 2^53, [preserved_pairs] raises exactly when every county's total is
    at most 1, and what it raises then is [ZeroDivisionError]. *)
Theorem preserved_pairs_raises_iff (pops : gmap (string * string) Z) (e : exn) :
  nonneg pops →
  spec_pairs_same_county pops ≤ float_exact_bound →
  preserved_pairs pops = Raise e
  ↔ e = ZeroDivisionError ∧ ∀ c, spec_county_total pops c ≤ 1.
Proof.
  intros Hnn Hexact. rewrite <- (pairs_same_county_zero_iff pops Hnn).
  pose proof (preserved_pairs_cases_nonneg pops Hnn Hexact) as Hcases.
  case_decide as Hz.
  - rewrite Hcases. split; [intros [= <-]; done | intros [-> _]; done].
  - destruct Hcases as (q & -> & _). split; [done | intros [_ ?]; done].
Qed.

Lemma preserved_pairs_raises_iff_witness :
  preserved_pairs pops_zero = Raise ZeroDivisionError.
Proof.
  apply (preserved_pairs_raises_iff pops_zero ZeroDivisionError).
  - apply (bool_decide_unpack _). vm_compute. exact I.
  - apply Z.leb_le. vm_compute. reflexivity.
  - split; [reflexivity | exact county_total_pops_zero].
Defined.

Lemma spec_grand_total_nonneg (pops : gmap (string * string) Z) :
  nonneg pops → 0 ≤ spec_grand_total pops.
Proof.
  intros Hnn. rewrite spec_grand_total_sum. apply sum_with_nonneg.
  intros [k p] Hk%elem_of_items. exact (Hnn k p Hk).
Qed.

(** X9: on non-negative populations [largest_intersection] raises exactly
    when the grand total is zero, and what it raises then is
    [ZeroDivisionError]: [max] never sees an empty list, as every county of
    the mapping has an intersection, and the quotient is at most 1. *)
Theorem largest_intersection_raises_iff (pops : gmap (string * string) Z) (e : exn) :
  nonneg pops →
  largest_intersection pops = Raise e
  ↔ e = ZeroDivisionError ∧ spec_grand_total pops = 0.
Proof.
  intros Hnn. rewrite largest_intersection_run.
  destruct (decide (spec_grand_total pops = 0)) as [Hz|Hz].
  - rewrite Hz, py_truediv_zero. split; [intros [= <-]; done | intros [-> _]; done].
  - pose proof (spec_grand_total_nonneg pops Hnn).
    rewrite py_truediv_le; [| by apply sum_county_max_bounds | lia].
    split; [done | intros [_ ?]; done].
Qed.

Lemma largest_intersection_raises_iff_witness :
  largest_intersection pops_zero = Raise ZeroDivisionError.
Proof.
  apply (largest_intersection_raises_iff pops_zero ZeroDivisionError).
  - apply (bool_decide_unpack _). vm_compute. exact I.
  - split; [reflexivity | vm_compute; reflexivity].
Defined.

(** X10: on non-negative populations of grand total at most 2^53,
    [min_entropy] raises exactly when the mapping is empty or some county
    has total zero, and what it raises then is [ZeroDivisionError]; a
    zero-valued intersection in a county of non-zero total does not make it
    raise. *)
Theorem min_entropy_raises_iff (pops : gmap (string * string) Z) (e : exn) :
  nonneg pops →
  spec_grand_total pops ≤ float_exact_bound →
  min_entropy pops = Raise e
  ↔ e = ZeroDivisionError ∧
    (pops = ∅ ∨ ∃ c, c ∈ spec_counties pops ∧ spec_county_total pops c = 0).
Proof.
  intros Hnn Hexact.
  destruct (decide (pops = ∅)) as [->|Hne].
  { rewrite min_entropy_empty. split; [intros [= <-]; eauto | intros [-> _]; done]. }
  pose proof (nonneg_in_float_range pops Hnn Hexact) as Hr.
  assert (Ht : Z.abs (spec_grand_total pops) < float_overflow_bound).
  { pose proof (spec_grand_total_nonneg pops Hnn).
    pose proof float_exact_lt_overflow. pose proof float_exact_bound_pos. lia. }
  destruct (decide (Forall (λ c, spec_county_total pops c ≠ 0) (counties_of pops)))
    as [Hall|Hex].
  - rewrite Forall_forall in Hall.
    rewrite (min_entropy_nonzero_counties pops Hne Hr Ht Hall). split; [done|].
    intros [_ [?|(c & Hc & Hz)]]; [done|].
    destruct (Hall c); [|done]. by rewrite counties_of_spec, elem_of_elements.
  - apply not_Forall_Exists in Hex; [|apply _].
    apply Exists_exists in Hex as (c & Hc & Hz). simpl in Hz.
    assert (Hz' : spec_county_total pops c = 0)
      by (destruct (decide (spec_county_total pops c = 0)); tauto).
    rewrite (min_entropy_zero_county pops c Hr Hc Hz'). split.
    + intros [= <-]. split; [done|]. right. exists c. split; [|done].
      by rewrite counties_of_spec, elem_of_elements in Hc.
    + by intros [-> _].
Qed.

Lemma min_entropy_raises_iff_witness :
  min_entropy pops_0_5 = Raise ZeroDivisionError.
Proof.
  apply (min_entropy_raises_iff pops_0_5 ZeroDivisionError).
  - apply (bool_decide_unpack _). vm_compute. exact I.
  - apply Z.leb_le. vm_compute. reflexivity.
  - split; [reflexivity|]. right. exists "A". split; [|vm_compute; reflexivity].
    apply elem_of_spec_counties. exists "1". by eexists.
Defined.

(** ** A score of 1 means that no county is split *)

Lemma positive_pops_nonneg (pops : gmap (string * string) Z) :
  positive_pops pops → nonneg pops.
Proof. intros Hpos k p Hk. apply Z.lt_le_incl. exact (Hpos k p Hk). Qed.

Lemma sum_with_lt {A} (f g : A → Z) (l : list A) (x0 : A) :
  (∀ x, x ∈ l → f x ≤ g x) → x0 ∈ l → f x0 < g x0 →
  sum_with f l < sum_with g l.
Proof.
  induction l as [|y l IH]; intros Hle Hin Hlt; [by apply not_elem_of_nil in Hin|].
  rewrite !sum_with_cons.
  assert (f y ≤ g y) by (apply Hle; set_solver).
  assert (sum_with f l ≤ sum_with g l)
    by (apply sum_with_le; intros z Hz; apply Hle; set_solver).
  apply elem_of_cons in Hin as [->|Hin]; [lia|].
  assert (sum_with f l < sum_with g l)
    by (apply IH; [intros z Hz; apply Hle; set_solver | done | done]).
  lia.
Qed.

Lemma choose2_strict (a b : Z) :
  1 ≤ a → 1 ≤ b → choose2 a + choose2 b < choose2 (a + b).
Proof.
  intros Ha Hb.
  pose proof (choose2_double a). pose proof (choose2_double b).
  pose proof (choose2_double (a + b)). nia.
Qed.

(** Splitting a positive population in two or more parts loses pairs. *)
Lemma choose2_sum_lt {A} (f : A → Z) (l : list A) :
  (1 < length l)%nat → (∀ x, x ∈ l → 0 < f x) →
  sum_with (λ x, choose2 (f x)) l < choose2 (sum_with f l).
Proof.
  destruct l as [|x l]; [simpl; lia|]. intros Hlen Hf.
  rewrite !sum_with_cons.
  assert (0 < f x) by (apply Hf; set_solver).
  assert (0 < sum_with f l).
  { apply sum_with_pos; [destruct l; [simpl in Hlen; lia | done]|].
    intros y Hy. apply Hf. set_solver. }
  assert (sum_with (λ x, choose2 (f x)) l ≤ choose2 (sum_with f l)).
  { apply choose2_sum_le. intros y Hy. apply Z.lt_le_incl, Hf. set_solver. }
  pose proof (choose2_strict (f x) (sum_with f l)). lia.
Qed.

(** A part of a positive population split in two or more parts is less than
    the whole. *)
Lemma sum_with_elem_lt {A} (f : A → Z) (l : list A) (x : A) :
  (1 < length l)%nat → (∀ y, y ∈ l → 0 < f y) → x ∈ l → f x < sum_with f l.
Proof.
  destruct l as [|y l]; [simpl; lia|]. intros Hlen Hf Hx.
  rewrite sum_with_cons.
  assert (0 < f y) by (apply Hf; set_solver).
  assert (Hl : 0 < sum_with f l).
  { apply sum_with_pos; [destruct l; [simpl in Hlen; lia | done]|].
    intros z Hz. apply Hf. set_solver. }
  apply elem_of_cons in Hx as [->|Hx]; [lia|].
  assert (f x ≤ sum_with f l).
  { apply sum_with_elem_le; [|done]. intros z Hz. apply Z.lt_le_incl, Hf. set_solver. }
  lia.
Qed.

(** Either no county is split, or some county has two intersections or
    more. *)
Lemma unsplit_or_split_county (pops : gmap (string * string) Z) :
  unsplit pops ∨
  ∃ c, c ∈ counties_of pops ∧ (1 < length (filter (in_county c) (items pops)))%nat.
Proof.
  destruct (decide (Forall (λ c, length (filter (in_county c) (items pops)) = 1%nat)
                           (counties_of pops))) as [Hall|Hex].
  - left. apply unsplit_iff_length. by apply Forall_forall.
  - right. apply not_Forall_Exists in Hex; [|apply _].
    apply Exists_exists in Hex as (c & Hc & Hlen). exists c. split; [done|].
    pose proof (county_items_length_pos pops c Hc). simpl in Hlen. lia.
Qed.

Lemma split_county_not_unsplit (pops : gmap (string * string) Z) c :
  c ∈ counties_of pops →
  (1 < length (filter (in_county c) (items pops)))%nat → ¬ unsplit pops.
Proof.
  intros Hc Hlen Hun. pose proof (proj1 (unsplit_iff_length pops) Hun c Hc). lia.
Qed.

Lemma Qdiv_eq_one (n d : Z) :
  d ≠ 0 → (inject_Z n / inject_Z d == 1)%Q ↔ n = d.
Proof.
  intros Hd.
  assert (Hd' : ¬ (inject_Z d == 0)%Q)
    by (change 0%Q with (inject_Z 0); by rewrite inject_Z_injective).
  split.
  - intros Hq. apply inject_Z_injective.
    rewrite <- (Qmult_div_r (inject_Z n) (inject_Z d) Hd'), Hq. ring.
  - intros ->. by apply Qmult_inv_r.
Qed.

Lemma pairs_same_county_pos (pops : gmap (string * string) Z) :
  nonneg pops → (∃ c, 2 ≤ spec_county_total pops c) →
  1 ≤ spec_pairs_same_county pops.
Proof.
  intros Hnn [c0 Hc0]. rewrite spec_pairs_same_county_sum.
  etrans; [apply (choose2_pos _ Hc0)|].
  apply (sum_with_elem_le (λ c, choose2 (spec_county_total pops c))).
  - intros c _. by apply choose2_nonneg, spec_county_total_nonneg.
  - apply county_total_in_counties. lia.
Qed.

Lemma pairs_same_district_by_county (pops : gmap (string * string) Z) :
  spec_pairs_same_district pops
  = sum_with (λ c, sum_with (λ kv, choose2 kv.2) (filter (in_county c) (items pops)))
             (counties_of pops).
Proof.
  rewrite spec_pairs_same_district_sum.
  apply sum_with_by_county; [apply NoDup_counties_of | apply items_county_in_counties].
Qed.

(** X11: on positive populations with some county of total at least 2 and
    a count of same-county pairs of at most 2^53, [preserved_pairs] returns
    1 exactly when no county is split. *)
Theorem preserved_pairs_one_iff_unsplit (pops : gmap (string * string) Z) :
  positive_pops pops →
  (∃ c, 2 ≤ spec_county_total pops c) →
  spec_pairs_same_county pops ≤ float_exact_bound →
  ∃ q, preserved_pairs pops = Ok q ∧ ((q == 1)%Q ↔ unsplit pops).
Proof.
  intros Hpos Hbig Hexact. pose proof (positive_pops_nonneg pops Hpos) as Hnn.
  pose proof (pairs_same_county_pos pops Hnn Hbig) as Hden.
  pose proof (preserved_pairs_cases_nonneg pops Hnn Hexact) as Hcases.
  rewrite decide_False in Hcases by lia. destruct Hcases as (q & Hq & Hv).
  exists q. split; [done|]. rewrite Hv, Qdiv_eq_one by lia.
  rewrite pairs_same_district_by_county, spec_pairs_same_county_sum.
  destruct (unsplit_or_split_county pops) as [Hun|(c & Hc & Hlen)].
  - split; [done|]. intros _. apply sum_with_ext. intros c Hc.
    destruct (unsplit_county_items pops c Hun Hc) as [kv Hkv].
    rewrite spec_county_total_sum, Hkv. simpl. by rewrite !Z.add_0_r.
  - pose proof (split_county_not_unsplit pops c Hc Hlen) as Hnot.
    split; [|done]. intros Heq. exfalso.
    assert (Hlt : sum_with (λ c, sum_with (λ kv, choose2 kv.2)
                                          (filter (in_county c) (items pops)))
                           (counties_of pops)
                  < sum_with (λ c, choose2 (spec_county_total pops c)) (counties_of pops)).
    { apply (sum_with_lt _ _ _ c); [|done|].
      - intros c' _. rewrite spec_county_total_sum. apply (choose2_sum_le snd).
        intros kv Hkv. by eapply nonneg_county_items.
      - rewrite spec_county_total_sum. apply (choose2_sum_lt snd); [done|].
        intros kv. by apply positive_county_items. }
    lia.
Qed.

Lemma preserved_pairs_one_iff_unsplit_witness :
  ∃ q, preserved_pairs pops_100_50 = Ok q ∧ ((q == 1)%Q ↔ unsplit pops_100_50).
Proof.
  apply preserved_pairs_one_iff_unsplit.
  - apply (bool_decide_unpack _). vm_compute. exact I.
  - exists "A". apply Z.leb_le. vm_compute. reflexivity.
  - apply Z.leb_le. vm_compute. reflexivity.
Defined.

Lemma county_max_pos (pops : gmap (string * string) Z) c :
  positive_pops pops → c ∈ counties_of pops → 0 < county_max pops c.
Proof.
  intros Hpos Hc. destruct (py_max_county pops c Hc) as [_ [[d Hd] _]].
  exact (Hpos _ _ Hd).
Qed.

Lemma county_max_lt_total (pops : gmap (string * string) Z) c :
  positive_pops pops → c ∈ counties_of pops →
  (1 < length (filter (in_county c) (items pops)))%nat →
  county_max pops c < spec_county_total pops c.
Proof.
  intros Hpos Hc Hlen. destruct (py_max_county pops c Hc) as [_ [[d Hd] _]].
  rewrite spec_county_total_sum.
  apply (sum_with_elem_lt snd _ ((c, d), county_max pops c)); [done | |].
  - intros kv. by apply positive_county_items.
  - by apply elem_of_county_items.
Qed.

(** X12: on a non-empty mapping of positive populations of grand total at
    most 2^53, [largest_intersection] returns a positive number, and returns
    1 exactly when no county is split. *)
Theorem largest_intersection_one_iff_unsplit (pops : gmap (string * string) Z) :
  pops ≠ ∅ →
  positive_pops pops →
  spec_grand_total pops ≤ float_exact_bound →
  ∃ q, largest_intersection pops = Ok q ∧ (0 < q)%Q ∧ ((q == 1)%Q ↔ unsplit pops).
Proof.
  intros Hne Hpos _. pose proof (positive_pops_nonneg pops Hpos) as Hnn.
  pose proof (positive_grand_total pops Hpos Hne) as Htot.
  assert (Hmax : 0 < spec_sum_counties pops (county_max pops)).
  { rewrite spec_sum_counties_sum. apply sum_with_pos.
    - destruct (nonempty_has_county pops Hne) as [c Hc]. intros Hnil.
      rewrite Hnil in Hc. by apply not_elem_of_nil in Hc.
    - intros c Hc. by apply county_max_pos. }
  eexists. split.
  { rewrite largest_intersection_run.
    apply py_truediv_le; [by apply sum_county_max_bounds | done]. }
  split.
  - apply Qlt_shift_div_l.
    + change 0%Q with (inject_Z 0). by rewrite <- Zlt_Qlt.
    + rewrite Qmult_0_l. change 0%Q with (inject_Z 0). by rewrite <- Zlt_Qlt.
  - rewrite Qdiv_eq_one by lia.
    destruct (unsplit_or_split_county pops) as [Hun|(c & Hc & Hlen)].
    + split; [done|]. intros _. by apply unsplit_sum_county_max.
    + pose proof (split_county_not_unsplit pops c Hc Hlen) as Hnot.
      split; [|done]. intros Heq. exfalso.
      rewrite spec_sum_counties_sum, spec_grand_total_by_county in Heq.
      assert (sum_with (county_max pops) (counties_of pops)
              < sum_with (spec_county_total pops) (counties_of pops)); [|lia].
      apply (sum_with_lt _ _ _ c); [|done|].
      * intros c' Hc'. by apply county_max_le_total.
      * by apply county_max_lt_total.
Qed.

Lemma largest_intersection_one_iff_unsplit_witness :
  ∃ q, largest_intersection pops_60_40 = Ok q ∧ (0 < q)%Q ∧
       ((q == 1)%Q ↔ unsplit pops_60_40).
Proof.
  apply largest_intersection_one_iff_unsplit.
  - apply (bool_decide_unpack _). vm_compute. exact I.
  - apply (bool_decide_unpack _). vm_compute. exact I.
  - apply Z.leb_le. vm_compute. reflexivity.
Defined.

(** ** The filter followed by the metrics *)

Lemma sum_county_max_pos (pops : gmap (string * string) Z) :
  pops ≠ ∅ → positive_pops pops → 0 < spec_sum_counties pops (county_max pops).
Proof.
  intros Hne Hpos. rewrite spec_sum_counties_sum. apply sum_with_pos.
  - destruct (nonempty_has_county pops Hne) as [c Hc]. intros Hnil.
    rewrite Hnil in Hc. by apply not_elem_of_nil in Hc.
  - intros c Hc. by apply county_max_pos.
Qed.

Lemma score_unit_interval (H : R) : (0 <= H)%R → (0 < 1 / (1 + H) <= 1)%R.
Proof.
  intros HH. split.
  - apply Rdiv_lt_0_compat; lra.
  - apply (Rmult_le_reg_r (1 + H)); [lra|].
    unfold Rdiv. rewrite Rmult_assoc, Rinv_l; lra.
Qed.

Lemma entry_le_county_total (pops : gmap (string * string) Z) c d p :
  nonneg pops → pops !! (c, d) = Some p → p ≤ spec_county_total pops c.
Proof.
  intros Hnn Hk. rewrite spec_county_total_sum.
  apply (sum_with_elem_le snd _ ((c, d), p)).
  - intros kv Hkv. by eapply nonneg_county_items.
  - by apply elem_of_county_items.
Qed.

(** X14: after [threshold] with a threshold of at least 2 (the default is
    50) the three ratio metrics are all undefined or all defined: if nothing
    is left each raises [ZeroDivisionError]; otherwise, when what is left
    has a grand total and a count of same-county pairs of at most 2^53,
    [preserved_pairs] returns a number in [0,1], and [largest_intersection]
    and [min_entropy] return numbers in (0,1], [min_entropy] a finite one. *)
Theorem threshold_then_metrics
    (h : gmap positive (gmap (string * string) Z)) (l : positive)
    (pops : gmap (string * string) Z) (t : Z) :
  h !! l = Some pops →
  2 ≤ t →
  ∃ h' kept,
    threshold l t h = Ok (l, h') ∧ h' !! l = Some kept ∧
    (kept = ∅ →
     preserved_pairs kept = Raise ZeroDivisionError ∧
     largest_intersection kept = Raise ZeroDivisionError ∧
     min_entropy kept = Raise ZeroDivisionError) ∧
    (kept ≠ ∅ →
     spec_grand_total kept ≤ float_exact_bound →
     spec_pairs_same_county kept ≤ float_exact_bound →
     ∃ q1 q2 x,
       preserved_pairs kept = Ok q1 ∧ (0 <= q1 <= 1)%Q ∧
       largest_intersection kept = Ok q2 ∧ (0 < q2 <= 1)%Q ∧
       min_entropy kept = Ok (Fin x) ∧ (0 < x <= 1)%R).
Proof.
  intros Hl Ht.
  exists (<[l := spec_filtered pops t]> h), (spec_filtered pops t).
  split; [by apply threshold_run|]. split; [apply lookup_insert_eq|].
  split; [by intros ->|]. intros Hne Hexact' Hexact.
  set (kept := spec_filtered pops t) in *.
  assert (Hge : ∀ k p, kept !! k = Some p → 2 ≤ p).
  { intros k p [_ Hp]%lookup_spec_filtered. lia. }
  assert (Hpos : positive_pops kept).
  { intros k p Hk. specialize (Hge k p Hk). simpl. lia. }
  pose proof (positive_pops_nonneg kept Hpos) as Hnn.
  pose proof (positive_grand_total kept Hpos Hne) as Htot.
  assert (Hbig : ∃ c, 2 ≤ spec_county_total kept c).
  { apply map_choose in Hne as ([c d] & p & Hk). exists c.
    pose proof (entry_le_county_total kept c d p Hnn Hk). specialize (Hge _ _ Hk). lia. }
  pose proof (pairs_same_county_pos kept Hnn Hbig) as Hden.
  pose proof (preserved_pairs_cases_nonneg kept Hnn Hexact) as Hcases.
  rewrite decide_False in Hcases by lia. destruct Hcases as (q1 & Hq1 & Hv1).
  exists q1. eexists. eexists.
  split; [exact Hq1|]. split.
  { rewrite Hv1. apply Qdiv_unit_interval; [by apply preserved_pairs_bounds | lia]. }
  split.
  { rewrite largest_intersection_run.
    apply py_truediv_le; [by apply sum_county_max_bounds | done]. }
  split.
  { split.
    - apply Qlt_shift_div_l.
      + change 0%Q with (inject_Z 0). by rewrite <- Zlt_Qlt.
      + rewrite Qmult_0_l. change 0%Q with (inject_Z 0). rewrite <- Zlt_Qlt.
        by apply sum_county_max_pos.
    - apply Qdiv_unit_interval; [by apply sum_county_max_bounds | done]. }
  split; [by apply min_entropy_positive_run|].
  by apply score_unit_interval, spec_cond_entropy_nonneg.
Qed.

(** On [{("A","1"): 100, ("A","2"): 0, ("B","1"): 50}] at the default
    threshold something is left and the three metrics are defined. *)
Lemma threshold_then_metrics_witness :
  ∃ h' kept,
    threshold 1%positive threshold_default {[ 1%positive := pops_100_0_50 ]}
    = Ok (1%positive, h') ∧
    h' !! 1%positive = Some kept ∧
    ∃ q1 q2 x,
      preserved_pairs kept = Ok q1 ∧ (0 <= q1 <= 1)%Q ∧
      largest_intersection kept = Ok q2 ∧ (0 < q2 <= 1)%Q ∧
      min_entropy kept = Ok (Fin x) ∧ (0 < x <= 1)%R.
Proof.
  destruct (threshold_then_metrics {[ 1%positive := pops_100_0_50 ]} 1%positive
              pops_100_0_50 threshold_default) as (h' & kept & Hrun & Hk & _ & Hdef).
  - reflexivity.
  - unfold threshold_default. lia.
  - exists h', kept. split; [exact Hrun|]. split; [exact Hk|].
    rewrite (threshold_run _ _ _ pops_100_0_50) in Hrun by reflexivity.
    injection Hrun as Hh. rewrite <- Hh, lookup_insert_eq in Hk.
    assert (Hk' : spec_filtered pops_100_0_50 threshold_default = kept) by congruence.
    apply Hdef; rewrite <- Hk'.
    + intros Hempty.
      apply (f_equal (λ m : gmap (string * string) Z, m !! ("A","1"))) in Hempty.
      vm_compute in Hempty. discriminate.
    + apply Z.leb_le. vm_compute. reflexivity.
    + apply Z.leb_le. vm_compute. reflexivity.
Defined.

(** ** One county in equal pieces *)

Lemma sum_with_const {A} (f : A → Z) (l : list A) (v : Z) :
  (∀ x, x ∈ l → f x = v) → sum_with f l = Z.of_nat (length l) * v.
Proof.
  induction l as [|x l IH]; intros Hf; [done|].
  assert (Hx : f x = v) by (apply Hf; set_solver).
  assert (Hl : sum_with f l = Z.of_nat (length l) * v)
    by (apply IH; intros y Hy; apply Hf; set_solver).
  rewrite sum_with_cons, Hx, Hl. simpl length. rewrite Nat2Z.inj_succ. lia.
Qed.

Lemma Rsum_with_const {A} (f : A → R) (l : list A) (v : R) :
  (∀ x, x ∈ l → f x = v) → Rsum_with f l = (IZR (Z.of_nat (length l)) * v)%R.
Proof.
  induction l as [|x l IH]; intros Hf; [change (0 = 0 * v)%R; lra|].
  assert (Hx : f x = v) by (apply Hf; set_solver).
  assert (Hl : Rsum_with f l = (IZR (Z.of_nat (length l)) * v)%R)
    by (apply IH; intros y Hy; apply Hf; set_solver).
  simpl length. rewrite Nat2Z.inj_succ, succ_IZR.
  unfold Rsum_with in *. simpl. rewrite Hx, Hl. lra.
Qed.

Lemma filter_all {A} (P : A → Prop) `{∀ x, Decision (P x)} (l : list A) :
  (∀ x, x ∈ l → P x) → filter P l = l.
Proof.
  induction l as [|x l IH]; intros HP; [done|].
  rewrite filter_cons, decide_True by (apply HP; set_solver).
  f_equal. apply IH. intros y Hy. apply HP. set_solver.
Qed.

Lemma log2_inv (x : R) : (0 < x)%R → log2 (/ x) = (- log2 x)%R.
Proof. intros Hx. unfold log2. rewrite ln_Rinv by done. unfold Rdiv. ring. Qed.

Section equal_pieces.
Context (pops : gmap (string * string) Z) (c : string) (p : Z).
Hypothesis Hshape : ∀ k v, pops !! k = Some v → k.1 = c ∧ v = p.
Hypothesis Hp : 0 < p.
Hypothesis Hne : pops ≠ ∅.

Lemma equal_pieces_positive : positive_pops pops.
Proof. intros k v Hk. destruct (Hshape k v Hk) as [_ ->]. exact Hp. Qed.

Lemma equal_pieces_size : 0 < Z.of_nat (size pops).
Proof. apply map_size_non_empty_iff in Hne. lia. Qed.

Lemma equal_pieces_items : filter (in_county c) (items pops) = items pops.
Proof.
  apply filter_all. intros [k v] Hk%elem_of_items. by destruct (Hshape k v Hk).
Qed.

Lemma equal_pieces_counties : counties_of pops = [c].
Proof.
  rewrite counties_of_spec.
  assert (Hset : spec_counties pops = {[ c ]}).
  { apply set_eq. intros c'. rewrite elem_of_spec_counties, elem_of_singleton. split.
    - intros [d [v Hk]]. by destruct (Hshape _ _ Hk).
    - intros ->. apply map_choose in Hne as ([c' d] & v & Hk).
      destruct (Hshape _ _ Hk) as [Hc _]. simpl in Hc. subst c'. eauto. }
  rewrite Hset. apply elements_singleton.
Qed.

Lemma equal_pieces_values kv : kv ∈ items pops → kv.2 = p.
Proof. destruct kv as [k v]. intros Hk%elem_of_items. by destruct (Hshape k v Hk). Qed.

Lemma equal_pieces_length : length (items pops) = size pops.
Proof. apply length_map_to_list. Qed.

Lemma equal_pieces_county_total : spec_county_total pops c = Z.of_nat (size pops) * p.
Proof.
  rewrite spec_county_total_sum, equal_pieces_items.
  rewrite (sum_with_const snd _ p) by apply equal_pieces_values.
  by rewrite equal_pieces_length.
Qed.

Lemma equal_pieces_grand_total : spec_grand_total pops = Z.of_nat (size pops) * p.
Proof.
  rewrite spec_grand_total_sum.
  rewrite (sum_with_const snd _ p) by apply equal_pieces_values.
  by rewrite equal_pieces_length.
Qed.

Lemma equal_pieces_county_max : county_max pops c = p.
Proof.
  assert (Hc : c ∈ counties_of pops) by (rewrite equal_pieces_counties; set_solver).
  destruct (py_max_county pops c Hc) as [_ [[d Hd] _]].
  by destruct (Hshape _ _ Hd).
Qed.

Lemma equal_pieces_entropy : spec_cond_entropy pops = log2 (IZR (Z.of_nat (size pops))).
Proof.
  pose proof equal_pieces_size as Hn.
  assert (HnR : (0 < IZR (Z.of_nat (size pops)))%R) by (by apply IZR_lt).
  assert (HpR : (0 < IZR p)%R) by (by apply IZR_lt).
  rewrite spec_cond_entropy_sum, equal_pieces_counties.
  unfold Rsum_with at 1. simpl foldr.
  rewrite spec_county_term_sum, equal_pieces_items.
  rewrite equal_pieces_county_total, equal_pieces_grand_total, mult_IZR.
  rewrite (Rsum_with_const _ _
             (IZR p * log2 (/ IZR (Z.of_nat (size pops))))%R).
  - rewrite equal_pieces_length, log2_inv by done. field. lra.
  - intros kv Hkv. rewrite (equal_pieces_values kv Hkv). do 2 f_equal. field. lra.
Qed.
End equal_pieces.

(** X15: a mapping with a single county cut into [k] intersections of the
    same positive population [p], with k*p at most 2^53:
    [largest_intersection] returns 1/k, [min_entropy] returns
    1/(1 + log2 k), the conditional entropy being log2 k, and, when k*p is
    at least 2 and C(k*p,2) at most 2^53, [preserved_pairs] returns
    k*C(p,2)/C(k*p,2). *)
Theorem equal_pieces_scores
    (pops : gmap (string * string) Z) (c : string) (p : Z) :
  (∀ k v, pops !! k = Some v → k.1 = c ∧ v = p) →
  0 < p →
  pops ≠ ∅ →
  Z.of_nat (size pops) * p ≤ float_exact_bound →
  (∃ q, largest_intersection pops = Ok q ∧
        (q == 1 / inject_Z (Z.of_nat (size pops)))%Q) ∧
  spec_cond_entropy pops = log2 (IZR (Z.of_nat (size pops))) ∧
  min_entropy pops = Ok (Fin (1 / (1 + log2 (IZR (Z.of_nat (size pops)))))) ∧
  (2 ≤ Z.of_nat (size pops) * p →
   choose2 (Z.of_nat (size pops) * p) ≤ float_exact_bound →
   ∃ q, preserved_pairs pops = Ok q ∧
        (q == inject_Z (Z.of_nat (size pops) * choose2 p)
              / inject_Z (choose2 (Z.of_nat (size pops) * p)))%Q).
Proof.
  intros Hshape Hp Hne Hexact.
  pose proof (equal_pieces_size pops Hne) as Hn.
  assert (Hpos : positive_pops pops) by (by eapply equal_pieces_positive).
  assert (HH : spec_cond_entropy pops = log2 (IZR (Z.of_nat (size pops))))
    by (by eapply equal_pieces_entropy).
  assert (Hcs : counties_of pops = [c]) by (by eapply equal_pieces_counties).
  assert (Htot : spec_county_total pops c = Z.of_nat (size pops) * p)
    by (by eapply equal_pieces_county_total).
  assert (Hgrand : spec_grand_total pops = Z.of_nat (size pops) * p)
    by (by eapply equal_pieces_grand_total).
  assert (Hmax : county_max pops c = p) by (by eapply equal_pieces_county_max).
  split; [|split; [done|split]].
  - eexists. split.
    + rewrite largest_intersection_run.
      apply py_truediv_le;
        [by apply sum_county_max_bounds, positive_pops_nonneg | rewrite Hgrand; nia].
    + rewrite Hgrand, spec_sum_counties_sum, Hcs. simpl. rewrite Hmax.
      rewrite Z.add_0_r, inject_Z_mult. field. split.
      * change 0%Q with (inject_Z 0). rewrite inject_Z_injective. lia.
      * change 0%Q with (inject_Z 0). rewrite inject_Z_injective. lia.
  - rewrite <- HH. apply min_entropy_positive_run; [done | done | by rewrite Hgrand].
  - intros Hbig Hpairs.
    assert (Hden : spec_pairs_same_county pops
                   = choose2 (Z.of_nat (size pops) * p)).
    { rewrite spec_pairs_same_county_sum, Hcs. simpl. by rewrite Htot, Z.add_0_r. }
    assert (Hnum : spec_pairs_same_district pops = Z.of_nat (size pops) * choose2 p).
    { rewrite spec_pairs_same_district_sum.
      rewrite (sum_with_const _ _ (choose2 p)).
      - by rewrite equal_pieces_length.
      - intros kv Hkv. f_equal. by eapply equal_pieces_values. }
    pose proof (choose2_pos _ Hbig).
    pose proof (preserved_pairs_cases_nonneg pops (positive_pops_nonneg pops Hpos))
      as Hcases.
    rewrite Hden in Hcases. specialize (Hcases Hpairs).
    rewrite decide_False in Hcases by lia. rewrite <- Hden in Hcases.
    destruct Hcases as (q & Hq & Hv). exists q. split; [done|].
    by rewrite Hv, Hden, Hnum.
Qed.

(** [{("A","1"): 50, ("A","2"): 50}] is one county in two equal pieces. *)
Lemma equal_pieces_scores_witness :
  (∃ q, largest_intersection pops_50_50 = Ok q ∧
        (q == 1 / inject_Z (Z.of_nat (size pops_50_50)))%Q) ∧
  spec_cond_entropy pops_50_50 = log2 (IZR (Z.of_nat (size pops_50_50))) ∧
  min_entropy pops_50_50
  = Ok (Fin (1 / (1 + log2 (IZR (Z.of_nat (size pops_50_50)))))) ∧
  (2 ≤ Z.of_nat (size pops_50_50) * 50 →
   choose2 (Z.of_nat (size pops_50_50) * 50) ≤ float_exact_bound →
   ∃ q, preserved_pairs pops_50_50 = Ok q ∧
        (q == inject_Z (Z.of_nat (size pops_50_50) * choose2 50)
              / inject_Z (choose2 (Z.of_nat (size pops_50_50) * 50)))%Q).
Proof.
  apply (equal_pieces_scores pops_50_50 "A" 50).
  - change (map_Forall (λ k v, k.1 = "A" ∧ v = 50) pops_50_50).
    apply (bool_decide_unpack _). vm_compute. exact I.
  - lia.
  - apply (bool_decide_unpack _). vm_compute. exact I.
  - apply Z.leb_le. vm_compute. reflexivity.
Defined.
